(** * django-categories: hierarchical categories over a nested-set tree

    A shallow embedding of [categories/base.py] and [categories/models.py]:
    the cascading [save], the breadcrumb builders ([__unicode__],
    [generate_unicode_name], [all_categories], [get_absolute_url]) and the
    admin form validation ([CategoryBaseAdminForm.clean]).

    The database table is a finite map from primary keys to rows.  Model
    methods that touch the database take the table and, when they write,
    return the new one.  [save] calls itself on descendants, so it carries a
    fuel argument that bounds the depth of nested calls. *)

From Stdlib Require Import ZArith String Ascii.
From stdpp Require Import gmap strings list fin_maps sorting.

Open Scope Z_scope.

(** ** Data model *)

(** One record for the fields of [CategoryBase] (base.py) and of [Category]
    (models.py) that some method reads or writes.  [pk] is the [id] column;
    it is [None] for an instance that was never saved.  [thumbnail] is the
    uploaded file, represented by what [get_image_dimensions] reads from it.
    The remaining payload columns ([is_blog], [order], [alternate_title],
    [description], the SEO fields, [site]) are touched by no method and are
    left out. *)
Record Category := mkCategory {
  pk : option Z;
  parent : option Z;
  tree_id : Z;
  lft : Z;
  rght : Z;
  level : Z;
  name : string;
  slug : string;
  active : bool;
  unicode_name : option string;
  alternate_url : string;
  thumbnail : option (option Z * option Z);
  thumbnail_width : option Z;
  thumbnail_height : option Z
}.

#[global] Instance Category_eq_dec : EqDecision Category.
Proof. solve_decision. Defined.

(** Attribute assignments [self.pk = v], [self.slug = v], ... *)
Definition set_pk (v : option Z) (c : Category) : Category :=
  mkCategory v (parent c) (tree_id c) (lft c) (rght c) (level c) (name c)
    (slug c) (active c) (unicode_name c) (alternate_url c) (thumbnail c)
    (thumbnail_width c) (thumbnail_height c).

Definition set_slug (v : string) (c : Category) : Category :=
  mkCategory (pk c) (parent c) (tree_id c) (lft c) (rght c) (level c) (name c)
    v (active c) (unicode_name c) (alternate_url c) (thumbnail c)
    (thumbnail_width c) (thumbnail_height c).

Definition set_active (v : bool) (c : Category) : Category :=
  mkCategory (pk c) (parent c) (tree_id c) (lft c) (rght c) (level c) (name c)
    (slug c) v (unicode_name c) (alternate_url c) (thumbnail c)
    (thumbnail_width c) (thumbnail_height c).

Definition set_name (v : string) (c : Category) : Category :=
  mkCategory (pk c) (parent c) (tree_id c) (lft c) (rght c) (level c) v
    (slug c) (active c) (unicode_name c) (alternate_url c) (thumbnail c)
    (thumbnail_width c) (thumbnail_height c).

Definition set_alternate_url (v : string) (c : Category) : Category :=
  mkCategory (pk c) (parent c) (tree_id c) (lft c) (rght c) (level c) (name c)
    (slug c) (active c) (unicode_name c) v (thumbnail c)
    (thumbnail_width c) (thumbnail_height c).

Definition set_thumbnail_size (w h : option Z) (c : Category) : Category :=
  mkCategory (pk c) (parent c) (tree_id c) (lft c) (rght c) (level c) (name c)
    (slug c) (active c) (unicode_name c) (alternate_url c) (thumbnail c) w h.

(** The table of categories, keyed by primary key. *)
Abbreviation DB := (gmap Z Category).

(** What the deployment supplies: Django's [slugify], the setting
    [SLUG_TRANSLITERATOR] of [categories.settings], and the path that
    [reverse('categories_tree_list')] resolves to. *)
Class Settings := {
  slugify : string → string;
  SLUG_TRANSLITERATOR : string → string;
  reverse_categories_tree_list : string
}.

(** [force_unicode] on a value that is already a string. *)
Definition force_unicode (s : string) : string := s.

(** ** The tree store (django-mptt over the Django ORM) *)

(** Rows as the ORM hands them out: the stored columns, with [pk] the key
    under which the row is stored. *)
Definition rows (db : DB) : list Category :=
  (λ kr : Z * Category, set_pk (Some kr.1) kr.2) <$> map_to_list db.

(** [Meta.ordering = ('tree_id', 'lft')]. *)
Definition ordering (a b : Category) : Prop :=
  tree_id a < tree_id b ∨ (tree_id a = tree_id b ∧ lft a ≤ lft b).

#[global] Instance ordering_dec : RelDecision ordering.
Proof. intros a b. unfold ordering. apply _. Defined.

(** [order_by('lft')]. *)
Definition by_lft (a b : Category) : Prop := lft a ≤ lft b.

#[global] Instance by_lft_dec : RelDecision by_lft.
Proof. intros a b. unfold by_lft. apply _. Defined.

(** Modelled from the spec: the Tree Store's [getDescendants] (django-mptt's
    [get_descendants()], not part of this repository), as the nested-set
    range query that management/commands/set_alternate_url.py and
    querysets.py write out by hand: same tree, left bound strictly inside
    the node's bounds, in the default ordering.  The bounds are those the
    instance carries. *)
Definition in_subtree (self r : Category) : Prop :=
  tree_id r = tree_id self ∧ lft self + 1 ≤ lft r ∧ lft r ≤ rght self - 1.

#[global] Instance in_subtree_dec self r : Decision (in_subtree self r).
Proof. unfold in_subtree. apply _. Defined.

Definition get_descendants (self : Category) (db : DB) : list Category :=
  merge_sort ordering (filter (in_subtree self) (rows db)).

(** Modelled from the spec: the Tree Store's [getAncestors] (django-mptt's
    [get_ancestors(include_self)], not part of this repository): root
    first; for a root node nothing, or the node's own row; otherwise the
    rows of the same tree whose bounds enclose the node's. *)
Definition is_root_node (self : Category) : bool :=
  bool_decide (parent self = None).

Definition encloses (lo hi : Z) (self r : Category) : Prop :=
  lft r ≤ lo ∧ hi ≤ rght r ∧ tree_id r = tree_id self.

#[global] Instance encloses_dec lo hi self r :
  Decision (encloses lo hi self r).
Proof. unfold encloses. apply _. Defined.

Definition get_ancestors (self : Category) (include_self : bool) (db : DB)
  : list Category :=
  if is_root_node self then
    if include_self then filter (λ r, pk r = pk self) (rows db) else []
  else
    let '(lo, hi) :=
      if include_self then (lft self, rght self)
      else (lft self - 1, rght self + 1) in
    merge_sort by_lft (filter (encloses lo hi self) (rows db)).

(** Modelled from the spec: the Tree Store's [persist], i.e. the inherited
    [MPTTModel.save]: write the instance's current field values under its
    primary key (an UPDATE, or an INSERT when there is no such row); an
    instance without a primary key gets the next one.  The nested-set
    coordinates written are the ones the instance carries: what the
    library does around this write (numbering a new node, re-numbering
    the rows around a node that is inserted or moved, keeping siblings
    ordered by name) and the failures of the store are outside the model,
    so the theorems speak of the rows as they are written here. *)
Definition next_pk (db : DB) : Z :=
  1 + map_fold (λ k _ acc, Z.max k acc) 0 db.

Definition persist (self : Category) (db : DB) : Category * DB :=
  match pk self with
  | Some k => (self, <[k := self]> db)
  | None =>
      let self := set_pk (Some (next_pk db)) self in
      (self, <[next_pk db := self]> db)
  end.

(** A [for] loop whose body updates a state and may fail. *)
Fixpoint for_each {A St : Type} (items : list A) (body : A → St → option St)
    (s : St) : option St :=
  match items with
  | [] => Some s
  | x :: rest => s' ← body x s; for_each rest body s'
  end.

(** ** base.py: [CategoryBase] *)

(** A live Python object: the model fields and the attributes set on the
    instance at run time. *)
Record Instance := mkInstance {
  fields : Category;
  attrs : gmap string (list string)
}.

Definition hasattr (o : Instance) (a : string) : bool :=
  bool_decide (is_Some (attrs o !! a)).

Definition setattr (o : Instance) (a : string) (v : list string) : Instance :=
  mkInstance (fields o) (<[a := v]> (attrs o)).

Module CategoryBase.

(** [if not self.slug: self.slug = slugify(SLUG_TRANSLITERATOR(self.name))[:50]] *)
Definition fill_slug `{Settings} (self : Category) : Category :=
  if decide (slug self = "") then
    set_slug (substring 0 50 (slugify (SLUG_TRANSLITERATOR (name self)))) self
  else self.

(** [CategoryBase.save]; [None] when the fuel runs out. *)
Fixpoint save `{Settings} (fuel : nat) (self : Category) (db : DB)
  : option (Category * DB) :=
  match fuel with
  | O => None
  | S fuel =>
      let '(self, db) := persist (fill_slug self) db in
      if negb (active self) then
        db ← for_each (get_descendants self db)
               (λ item db,
                  if negb (Bool.eqb (active item) (active self)) then
                    r ← save fuel (set_active (active self) item) db;
                    Some r.2
                  else Some db) db;
        Some (self, db)
      else Some (self, db)
  end.

(** [CategoryBase.generate_unicode_name]: the first ancestor is removed
    from [ancestors_list], and the join runs over [ancestors]. *)
Definition generate_unicode_name (self : Category) (db : DB) : string :=
  let ancestors := get_ancestors self false db in
  let ancestors_list := ancestors in
  let ancestors_list :=
    match ancestors_list with
    | first :: rest =>
        if negb (String.eqb (slug first) "magazine")
           && negb (String.eqb (slug first) "nextgov-categories")
        then rest else ancestors_list
    | [] => ancestors_list
    end in
  String.concat " > "
    (((λ i, force_unicode (name i)) <$> ancestors) ++ [name self]).

(** [CategoryBase.__unicode__] *)
Definition unicode (self : Category) (db : DB) : string :=
  match unicode_name self with
  | Some u => if decide (u = "") then generate_unicode_name self db else u
  | None => generate_unicode_name self db
  end.

(** The loop of [all_categories]: each round appends the join of a copy
    of the list built so far followed by the category's name. *)
Definition all_categories_loop (delimiter : string)
    (ancestors : list Category) : list string :=
  fold_left
    (λ acc category, acc ++ [String.concat delimiter (acc ++ [name category])])
    ancestors [].

(** [CategoryBase.all_categories].  Inside the class body the attribute
    [self.__all_categories] is [_CategoryBase__all_categories]; the
    string given to [hasattr] is taken as it is.  [None] is the
    AttributeError of reading an attribute that is not there. *)
Definition all_categories (self : Instance) (delimiter : string) (db : DB)
  : option (list string) * Instance :=
  if hasattr self "__all_categories" then
    (attrs self !! "_CategoryBase__all_categories", self)
  else
    let paths :=
      all_categories_loop delimiter (get_ancestors (fields self) true db) in
    (Some paths, setattr self "_CategoryBase__all_categories" paths).

Definition default_delimiter : string := "::".

End CategoryBase.

(** ** base.py: [CategoryBaseAdminForm] *)

(** The three [forms.ValidationError]s that [clean] raises, told apart by
    their message. *)
Inductive ValidationError :=
  | DuplicateSlug   (* "The slug must be unique among items in the same tree." *)
  | SelfParent      (* "You can't set the parent of the item to itself." *)
  | CyclicParent.   (* "You can't set the parent of the item to a descendant." *)

#[global] Instance ValidationError_eq_dec : EqDecision ValidationError.
Proof. solve_decision. Defined.

(** [self.cleaned_data]: the chosen parent (a row of the table, or [None])
    and the slug. *)
Record CleanedData := mkCleanedData {
  cd_parent : option Category;
  cd_slug : string
}.

Module CategoryBaseAdminForm.

(** "Validate slug (no duplicate slugs within same tree_id)": the slugs
    of the other rows of the parent's tree; empty for a top-level
    category.  The list is only tested for membership, so the order in
    which the query yields the rows is left as the table has it. *)
Definition this_tree_slugs (cleaned_data : CleanedData)
    (instance : Category) (db : DB) : list string :=
  match cd_parent cleaned_data with
  | None => []
  | Some p =>
      let parent_tree_id := tree_id p in
      slug <$>
        filter (λ c, pk c ≠ pk instance)
          (filter (λ c, tree_id c = parent_tree_id) (rows db))
  end.

Definition validate_slug (cleaned_data : CleanedData)
    (instance : Category) (db : DB) : ValidationError + unit :=
  if decide (cd_slug cleaned_data ∈ this_tree_slugs cleaned_data instance db)
  then inl DuplicateSlug
  else inr ().

(** "Validate Category Parent" *)
Definition validate_parent (cleaned_data : CleanedData)
    (instance : Category) (db : DB) : ValidationError + unit :=
  let decendant_ids := pk <$> get_descendants instance db in
  match cd_parent cleaned_data, pk instance with
  | None, _ | _, None => inr ()
  | Some p, Some _ =>
      if decide (pk p = pk instance) then inl SelfParent
      else if decide (pk p ∈ decendant_ids) then inl CyclicParent
      else inr ()
  end.

(** [CategoryBaseAdminForm.clean]; [is_valid] is the outcome of
    [self.is_valid()]. *)
Definition clean (is_valid : bool) (cleaned_data : CleanedData)
    (instance : Category) (db : DB) : ValidationError + CleanedData :=
  if negb is_valid then inr cleaned_data
  else
    match validate_slug cleaned_data instance db with
    | inl e => inl e
    | inr _ =>
        match validate_parent cleaned_data instance db with
        | inl e => inl e
        | inr _ => inr cleaned_data
        end
    end.

End CategoryBaseAdminForm.

(** ** models.py: [Category] *)

Module Models.

(** The assignments of [Category.save] before the row is written: the
    slug when it is blank, and the thumbnail's dimensions. *)
Definition fill_slug `{Settings} (self : Category) : Category :=
  if decide (slug self = "") then
    set_slug (substring 0 50 (slugify (name self))) self
  else self.

Definition fill_thumbnail_size (self : Category) : Category :=
  let '(width, height) :=
    match thumbnail self with
    | Some dimensions => dimensions
    | None => (None, None)
    end in
  set_thumbnail_size width height self.

(** [Category.save]; [None] when the fuel runs out. *)
Fixpoint save `{Settings} (fuel : nat) (self : Category) (db : DB)
  : option (Category * DB) :=
  match fuel with
  | O => None
  | S fuel =>
      let '(self, db) := persist (fill_thumbnail_size (fill_slug self)) db in
      db ← for_each (get_descendants self db)
             (λ item db,
                if negb (Bool.eqb (active item) (active self)) then
                  r ← save fuel (set_active (active self) item) db;
                  Some r.2
                else Some db) db;
      Some (self, db)
  end.

(** [Category.get_absolute_url] *)
Definition get_absolute_url `{Settings} (self : Category) (db : DB)
  : string :=
  if decide (alternate_url self = "") then
    let prefix := reverse_categories_tree_list in
    let ancestors := get_ancestors self false db ++ [self] in
    let ancestors :=
      if decide (0 < length ancestors)%nat then tail ancestors
      else ancestors in
    prefix
      +:+ String.concat "/" ((λ i, force_unicode (slug i)) <$> ancestors)
      +:+ "/"
  else alternate_url self.

(** [Category.generate_unicode_name] *)
Definition generate_unicode_name (self : Category) (db : DB) : string :=
  let ancestors := get_ancestors self false db in
  let ancestors_list := ancestors in
  let ancestors_list :=
    match ancestors_list with
    | first :: rest =>
        if negb (String.eqb (slug first) "magazine")
           && negb (String.eqb (slug first) "nextgov-categories")
        then rest else ancestors_list
    | [] => ancestors_list
    end in
  String.concat " > "
    (((λ i, force_unicode (name i)) <$> ancestors_list) ++ [name self]).

(** [Category.__unicode__] *)
Definition unicode (self : Category) (db : DB) : string :=
  match unicode_name self with
  | Some u => if decide (u = "") then generate_unicode_name self db else u
  | None => generate_unicode_name self db
  end.

End Models.

(** ** querysets.py: [CategoryQuerySet], and the managers that return it *)

(** What [Model.objects.get(...)] raises when the rows that match are not
    exactly one. *)
Inductive QueryError :=
  | DoesNotExist
  | MultipleObjectsReturned.

#[global] Instance QueryError_eq_dec : EqDecision QueryError.
Proof. solve_decision. Defined.

(** [self.model.objects.get(slug=...)] *)
Definition get_by_slug (s : string) (db : DB) : QueryError + Category :=
  match filter (λ c, slug c = s) (rows db) with
  | [] => inl DoesNotExist
  | [c] => inr c
  | _ => inl MultipleObjectsReturned
  end.

(** The range test that querysets.py and set_alternate_url.py both write:
    [lft__lte=root.rght, lft__gte=root.lft, tree_id=root.tree_id]. *)
Definition in_range (root c : Category) : Prop :=
  lft c ≤ rght root ∧ lft root ≤ lft c ∧ tree_id c = tree_id root.

#[global] Instance in_range_dec root c : Decision (in_range root c).
Proof. unfold in_range. apply _. Defined.

(** A queryset is represented by the rows that it yields, in the default
    ordering; [filter] on a queryset keeps the rows that match. *)
Module CategoryQuerySet.

(** [CategoryQuerySet(self.model)]: every row. *)
Definition all (db : DB) : list Category := merge_sort ordering (rows db).

(** [CategoryQuerySet.active] *)
Definition active (self : list Category) : list Category :=
  filter (λ c, active c = true) self.

(** [CategoryQuerySet.govexec]: the root is looked up in the whole table,
    the filter is applied to [self]. *)
Definition govexec (self : list Category) (db : DB)
  : QueryError + list Category :=
  match get_by_slug "categories" db with
  | inl e => inl e
  | inr ge_root_category =>
      inr (filter (λ c, in_range ge_root_category c
                        ∨ slug c = "govexec-sponsored") self)
  end.

End CategoryQuerySet.

(** [CategoryManager] of base.py: [objects.active()] and
    [objects.govexec()]. *)
Module CategoryManager.

Definition get_query_set (db : DB) : list Category := CategoryQuerySet.all db.

Definition active (db : DB) : list Category :=
  CategoryQuerySet.active (get_query_set db).

Definition govexec (db : DB) : QueryError + list Category :=
  CategoryQuerySet.govexec (get_query_set db) db.

End CategoryManager.

(** ** base.py: [CategoryBaseAdminForm.clean_slug] and [CategoryBaseAdmin] *)

(** [clean_slug]: [allow_slug_change] is the setting [ALLOW_SLUG_CHANGE];
    [name_] is [cleaned_data['name']], absent when the name field did not
    validate, and [slug_] is [cleaned_data['slug']].  The value returned
    becomes the cleaned slug; [None] is the KeyError of reading a name that
    is not there. *)
Definition clean_slug `{Settings} (allow_slug_change : bool)
    (instance : option Category) (name_ : option string) (slug_ : string)
  : option string :=
  if bool_decide (instance = None) || negb allow_slug_change then
    n ← name_; Some (substring 0 50 (slugify n))
  else Some (substring 0 50 slug_).

Module CategoryBaseAdmin.

(** [self.model.objects.filter(pk__in=[...])] *)
Definition selected_cats (selected : list Z) (db : DB) : list Category :=
  merge_sort ordering
    (filter (λ c, pk c ∈ (Some <$> selected)) (rows db)).

(** [item.children.all().update(active=flag)]: one UPDATE over the rows
    whose parent is the item, without calling [save].  Items come out of a
    query, so they have a primary key. *)
Definition update_children (item : Category) (flag : bool) (db : DB) : DB :=
  match pk item with
  | Some _ =>
      (λ r, if decide (parent r = pk item) then set_active flag r else r)
      <$> db
  | None => db
  end.

(** [CategoryBaseAdmin.deactivate]; [item.save()] is [CategoryBase.save]. *)
Definition deactivate `{Settings} (fuel : nat) (selected : list Z) (db : DB)
  : option DB :=
  for_each (selected_cats selected db)
    (λ item db,
       if active item then
         r ← CategoryBase.save fuel (set_active false item) db;
         Some (update_children r.1 false r.2)
       else Some db) db.

(** [CategoryBaseAdmin.activate] *)
Definition activate `{Settings} (fuel : nat) (selected : list Z) (db : DB)
  : option DB :=
  for_each (selected_cats selected db)
    (λ item db,
       r ← CategoryBase.save fuel (set_active true item) db;
       Some (update_children r.1 true r.2)) db.

End CategoryBaseAdmin.

(** ** models.py: [Category.display_converser] *)

(** The part of an instance that [display_converser] reads and writes: its
    [id] and the attribute [_uncached_show_converser_ad], absent at first. *)
Record ConverserView := mkConverserView {
  cv_pk : option Z;
  cv_uncached : option bool
}.

(** [display_converser]; [column] is the stored [show_converser_ad] of
    every row, by primary key.  [None] is the AttributeError of returning
    an attribute that was never set. *)
Definition display_converser (self : ConverserView) (column : gmap Z bool)
  : option bool * ConverserView :=
  let self :=
    match cv_uncached self with
    | None =>
        let uncached_show_converser_ad_list : list bool :=
          match cv_pk self with
          | Some k => option_list (column !! k)
          | None => []
          end in
        match uncached_show_converser_ad_list with
        | b :: _ =>
            if b then mkConverserView (cv_pk self) (Some true)
            else mkConverserView (cv_pk self) (Some false)
        | [] => self
        end
    | Some _ => self
    end in
  (cv_uncached self, self).

(** ** management/commands/set_alternate_url.py *)

Definition set_lft (v : Z) (c : Category) : Category :=
  mkCategory (pk c) (parent c) (tree_id c) v (rght c) (level c) (name c)
    (slug c) (active c) (unicode_name c) (alternate_url c) (thumbnail c)
    (thumbnail_width c) (thumbnail_height c).

Definition set_rght (v : Z) (c : Category) : Category :=
  mkCategory (pk c) (parent c) (tree_id c) (lft c) v (level c) (name c)
    (slug c) (active c) (unicode_name c) (alternate_url c) (thumbnail c)
    (thumbnail_width c) (thumbnail_height c).

Module SetAlternateUrl.

(** The rows the command walks: the root's range with the root excluded. *)
Definition categories (root_category : Category) (db : DB) : list Category :=
  let root_category := set_lft (lft root_category + 1) root_category in
  let root_category := set_rght (rght root_category - 1) root_category in
  merge_sort ordering (filter (in_range root_category) (rows db)).

(** ["%s=[%s]" % (category.name, category.get_absolute_url())] *)
Definition line `{Settings} (category : Category) (db : DB) : string :=
  name category +:+ "=[" +:+ Models.get_absolute_url category db +:+ "]".

(** [Command.handle]: the lines printed and the table left behind; the
    outer [None] is the fuel of [Category.save] running out. *)
Definition handle `{Settings} (fuel : nat) (db : DB)
  : option (QueryError + list string * DB) :=
  match get_by_slug "categories" db with
  | inl e => Some (inl e)
  | inr root_category =>
      r ← for_each (categories root_category db)
            (λ category (st : list string * DB),
               if decide (alternate_url category = "") then
                 let printed := line category st.2 in
                 let category :=
                   set_alternate_url (Models.get_absolute_url category st.2)
                     category in
                 r ← Models.save fuel category st.2;
                 Some (st.1 ++ [printed], r.2)
               else Some st) ([], db);
      Some (inr (r : list string * DB))
  end.

End SetAlternateUrl.

(** ** A concrete deployment *)

(** Modelled from the spec: the "URL-safe form" of a name, as Django's
    [slugify] template filter computes it on ASCII text: characters that
    are neither alphanumeric, underscore, whitespace nor hyphen are
    removed, surrounding whitespace is stripped, letters are lowered, and
    every run of whitespace and hyphens becomes one hyphen.  Bytes outside
    ASCII are dropped. *)
Module Slugify.

Definition code (c : ascii) : N := N_of_ascii c.

Definition is_space (c : ascii) : bool :=
  (N.leb 9 (code c) && N.leb (code c) 13) || N.eqb (code c) 32.

Definition is_word (c : ascii) : bool :=
  (N.leb 48 (code c) && N.leb (code c) 57)
  || (N.leb 65 (code c) && N.leb (code c) 90)
  || (N.leb 97 (code c) && N.leb (code c) 122)
  || N.eqb (code c) 95.

Definition is_hyphen (c : ascii) : bool := N.eqb (code c) 45.

Definition lower (c : ascii) : ascii :=
  if N.leb 65 (code c) && N.leb (code c) 90
  then ascii_of_N (code c + 32) else c.

Fixpoint lstrip (l : list ascii) : list ascii :=
  match l with
  | c :: rest => if is_space c then lstrip rest else l
  | [] => []
  end.

Definition strip (l : list ascii) : list ascii :=
  rev (lstrip (rev (lstrip l))).

Fixpoint hyphenate (in_run : bool) (l : list ascii) : list ascii :=
  match l with
  | [] => []
  | c :: rest =>
      if is_space c || is_hyphen c then
        if in_run then hyphenate true rest
        else "-"%char :: hyphenate true rest
      else c :: hyphenate false rest
  end.

Definition django_slugify (value : string) : string :=
  let value := List.filter (λ c, N.ltb (code c) 128) (list_ascii_of_string value) in
  let value := List.filter (λ c, is_word c || is_space c || is_hyphen c) value in
  let value := lower <$> strip value in
  string_of_list_ascii (hyphenate false value).

End Slugify.

(** The defaults: [SLUG_TRANSLITERATOR] is the identity in
    [categories.settings]; the category tree is served under
    [/categories/]. *)
Definition default_settings : Settings := {|
  slugify := Slugify.django_slugify;
  SLUG_TRANSLITERATOR := λ s, s;
  reverse_categories_tree_list := "/categories/"
|}.

(** ** Sample data *)

(** A row with the given key data; every other column at its default. *)
Definition row (parent_ : option Z) (tree lft_ rght_ level_ : Z)
    (name_ slug_ : string) (active_ : bool) : Category :=
  mkCategory None parent_ tree lft_ rght_ level_ name_ slug_ active_
    None "" None None None.

(** The tree [A -> B -> C] of the spec's example, all inactive, and the same
    tree all active. *)
Definition abc (flag : bool) : DB :=
  <[1 := row None 1 1 6 0 "A" "a" flag]>
  (<[2 := row (Some 1) 1 2 5 1 "B" "b" flag]>
  (<[3 := row (Some 2) 1 3 4 2 "C" "c" flag]> ∅)).

(** The instances of [A], [B] and [C] as loaded from that table. *)
Definition node_a (flag : bool) : Category :=
  set_pk (Some 1) (row None 1 1 6 0 "A" "a" flag).

Definition node_b (flag : bool) : Category :=
  set_pk (Some 2) (row (Some 1) 1 2 5 1 "B" "b" flag).

Definition node_c (flag : bool) : Category :=
  set_pk (Some 3) (row (Some 2) 1 3 4 2 "C" "c" flag).

(** The same tree after [A] was renamed. *)
Definition abc_renamed : DB :=
  <[1 := row None 1 1 6 0 "News" "a" true]> (abc true).

(** A freshly created root, not saved yet, with a blank slug. *)
Definition hello_world : Category :=
  row None 2 1 2 0 "Hello World" "" true.

(** A site: the tree [Categories -> News -> Politics] under the root that
    the queryset and the command look for, and a sponsored root in a tree
    of its own.  No row has an alternate URL yet. *)
Definition site : DB :=
  <[1 := row None 1 1 6 0 "Categories" "categories" true]>
  (<[2 := row (Some 1) 1 2 5 1 "News" "news" true]>
  (<[3 := row (Some 2) 1 3 4 2 "Politics" "politics" false]>
  (<[4 := row None 2 1 2 0 "Sponsored" "govexec-sponsored" true]> ∅))).

(** ** The breadcrumb rule in the spec's words *)

(** The root slugs that stay in the display name. *)
Definition kept_root_slugs : list string := ["magazine"; "nextgov-categories"].

(** "Drop the first element unless its slug equals one of a fixed
    allow-list of root slugs." *)
Definition spec_display_ancestors (ancestors : list Category)
  : list Category :=
  match ancestors with
  | first :: rest =>
      if decide (slug first ∈ kept_root_slugs) then ancestors else rest
  | [] => []
  end.

(** "path[i] = names[0..i] joined." *)
Definition spec_path (delimiter : string) (names : list string) (i : nat)
  : string :=
  String.concat delimiter (take (S i) names).

(** ** Vocabulary of the proofs *)

(** The body of the loop over the descendants, given the method run on an
    item: [flag] is [self.active]. *)
Definition body (item_save : Category → DB → option (Category * DB))
    (flag : bool) (item : Category) (db : DB) : option DB :=
  if negb (Bool.eqb (active item) flag) then
    r ← item_save (set_active flag item) db; Some r.2
  else Some db.

(** What both [save] methods do with one unit of fuel, given the method run
    on descendants: [prepare] is the assignments before the row is written,
    [cascades] whether the loop over the descendants is entered. *)
Definition save_step (prepare : Category → Category)
    (cascades : Category → bool)
    (item_save : Category → DB → option (Category * DB))
    (self : Category) (db : DB) : option (Category * DB) :=
  let '(self, db) := persist (prepare self) db in
  if cascades self then
    db ← for_each (get_descendants self db) (body item_save (active self)) db;
    Some (self, db)
  else Some (self, db).

(** The two instances: [CategoryBase.save] enters the loop for an inactive
    instance, [Category.save] always. *)
Definition base_cascades (c : Category) : bool := negb (active c).

Definition models_prepare `{Settings} (c : Category) : Category :=
  Models.fill_thumbnail_size (Models.fill_slug c).

Definition models_cascades (c : Category) : bool := true.

(** The row stored under [k] is inactive. *)
Definition inactive_at (db : DB) (k : Z) : Prop :=
  ∃ r, db !! k = Some r ∧ active r = false.

(** The nested-set coordinates of a row. *)
Definition coords (c : Category) : Z * Z * Z := (tree_id c, lft c, rght c).

(** How many rows lie strictly to the right of a left bound: the measure
    that bounds the depth of nested [save] calls. *)
Definition above (l : Z) (db : DB) : nat :=
  length (filter (λ kc : Z * (Z * Z * Z), l < kc.2.1.2)
            (map_to_list (coords <$> db))).

(** The columns that no [save] assigns: everything but the primary key,
    the coordinates, [slug], [active] and the thumbnail's size. *)
Definition payload (c : Category)
  : option Z * Z * string * option string * string
    * option (option Z * option Z) :=
  (parent c, level c, name c, unicode_name c, alternate_url c, thumbnail c).

(** The row stored under [k] has the flag [flag]. *)
Definition flag_at (flag : bool) (db : DB) (k : Z) : Prop :=
  ∃ r, db !! k = Some r ∧ active r = flag.

(** The row stored under [k] has an alternate URL. *)
Definition url_at (db : DB) (k : Z) : Prop :=
  ∃ r, db !! k = Some r ∧ alternate_url r ≠ "".

(** The invariant of the active flags: below an inactive row, every row is
    inactive. *)
Definition cascaded (db : DB) : Prop :=
  ∀ k r, db !! k = Some r → active r = false →
         ∀ d, d ∈ get_descendants r db → active d = false.

(** One round of the loops of [deactivate] and of [activate]. *)
Definition deactivate_body `{Settings} (fuel : nat) (item : Category)
    (db : DB) : option DB :=
  if active item then
    r ← CategoryBase.save fuel (set_active false item) db;
    Some (CategoryBaseAdmin.update_children r.1 false r.2)
  else Some db.

Definition activate_body `{Settings} (fuel : nat) (item : Category)
    (db : DB) : option DB :=
  r ← CategoryBase.save fuel (set_active true item) db;
  Some (CategoryBaseAdmin.update_children r.1 true r.2).

(** One round of the loop of [Command.handle]. *)
Definition handle_body `{Settings} (fuel : nat) (category : Category)
    (st : list string * DB) : option (list string * DB) :=
  if decide (alternate_url category = "") then
    let printed := SetAlternateUrl.line category st.2 in
    let category :=
      set_alternate_url (Models.get_absolute_url category st.2) category in
    r ← Models.save fuel category st.2;
    Some (st.1 ++ [printed], r.2)
  else Some st.

(** * Theorems *)

(** ** Setters *)

Lemma set_pk_same k c : pk c = Some k → set_pk (Some k) c = c.
Proof. destruct c; simpl; intros ->; reflexivity. Qed.

Lemma coords_set_pk v c : coords (set_pk v c) = coords c.
Proof. reflexivity. Qed.

Lemma coords_set_active v c : coords (set_active v c) = coords c.
Proof. reflexivity. Qed.

(** ** The loop combinator *)

Lemma for_each_inv {A St : Type} (I : St → Prop) (items : list A)
    (body : A → St → option St) (s s' : St) :
  I s →
  (∀ x s1 s2, x ∈ items → I s1 → body x s1 = Some s2 → I s2) →
  for_each items body s = Some s' → I s'.
Proof.
  revert s. induction items as [|x rest IH]; simpl; intros s Hs Hbody Hrun.
  - congruence.
  - destruct (body x s) as [s1|] eqn:Hx; simpl in Hrun; [|discriminate].
    apply (IH s1); auto.
    + eapply Hbody; eauto. left.
    + intros y s2 s3 Hy. apply Hbody. by right.
Qed.

Lemma for_each_is_Some {A St : Type} (I : St → Prop) (items : list A)
    (body : A → St → option St) (s : St) :
  I s →
  (∀ x s1, x ∈ items → I s1 → ∃ s2, body x s1 = Some s2 ∧ I s2) →
  is_Some (for_each items body s).
Proof.
  revert s. induction items as [|x rest IH]; simpl; intros s Hs Hbody.
  - eauto.
  - destruct (Hbody x s) as (s1 & -> & Hs1); [left|done|]. simpl.
    apply IH; auto. intros y s2 Hy. apply Hbody. by right.
Qed.

(** ** The tree store *)

Lemma elem_of_rows d (db : DB) :
  d ∈ rows db ↔ ∃ k r, db !! k = Some r ∧ d = set_pk (Some k) r.
Proof.
  unfold rows. rewrite list_elem_of_fmap. split.
  - intros ([k r] & -> & Hin). apply elem_of_map_to_list in Hin. eauto.
  - intros (k & r & Hk & ->). exists (k, r). split; [done|].
    by apply elem_of_map_to_list.
Qed.

Lemma elem_of_get_descendants d self (db : DB) :
  d ∈ get_descendants self db ↔
  ∃ k r, db !! k = Some r ∧ d = set_pk (Some k) r ∧ in_subtree self r.
Proof.
  unfold get_descendants. rewrite merge_sort_Permutation.
  rewrite list_elem_of_filter, elem_of_rows. split.
  - intros (Hsub & k & r & Hk & ->). eauto.
  - intros (k & r & Hk & -> & Hsub). eauto.
Qed.

Lemma in_subtree_coords self self' r r' :
  coords self = coords self' → coords r = coords r' →
  in_subtree self r → in_subtree self' r'.
Proof.
  unfold coords, in_subtree. intros [= Ht Hl Hr] [= Ht' Hl' Hr'] (? & ? & ?).
  repeat split; lia.
Qed.

Lemma lookup_coords (db db' : DB) k r :
  coords <$> db = coords <$> db' → db !! k = Some r →
  ∃ r', db' !! k = Some r' ∧ coords r' = coords r.
Proof.
  intros Heq Hk.
  assert ((coords <$> db') !! k = Some (coords r)) as Hk'.
  { rewrite <- Heq, lookup_fmap, Hk. done. }
  rewrite lookup_fmap in Hk'.
  destruct (db' !! k) as [r'|]; simpl in Hk'; [|discriminate].
  exists r'. split; congruence.
Qed.

Lemma coords_insert_same (db : DB) k r c :
  db !! k = Some r → coords c = coords r →
  coords <$> <[k := c]> db = coords <$> db.
Proof.
  intros Hk Hc. rewrite fmap_insert. apply insert_id.
  rewrite lookup_fmap, Hk, Hc. done.
Qed.

Lemma persist_saved c (db : DB) k :
  pk c = Some k → persist c db = (c, <[k := c]> db).
Proof. unfold persist. intros ->. done. Qed.

Lemma persist_spec c (db : DB) :
  ∃ k, persist c db = (set_pk (Some k) c, <[k := set_pk (Some k) c]> db)
       ∧ (pk c = Some k ∨ pk c = None ∧ k = next_pk db).
Proof.
  unfold persist. destruct (pk c) as [k|] eqn:Hpk.
  - exists k. rewrite set_pk_same by done. auto.
  - exists (next_pk db). auto.
Qed.

(** ** The cascade, for any method of the shape [save_step] *)

Section Cascade.

Context (prepare : Category → Category) (cascades : Category → bool)
        (save : nat → Category → DB → option (Category * DB)).

Hypothesis save_O : ∀ self db, save O self db = None.
Hypothesis save_S : ∀ fuel self db,
  save (S fuel) self db = save_step prepare cascades (save fuel) self db.
Hypothesis prepare_pk : ∀ c, pk (prepare c) = pk c.
Hypothesis prepare_coords : ∀ c, coords (prepare c) = coords c.
Hypothesis prepare_active : ∀ c, active (prepare c) = active c.

Lemma save_unfold fuel self db self' db' :
  save fuel self db = Some (self', db') →
  ∃ fuel' db1,
    fuel = S fuel' ∧ persist (prepare self) db = (self', db1) ∧
    if cascades self' then
      for_each (get_descendants self' db1)
        (body (save fuel') (active self')) db1
      = Some db'
    else db' = db1.
Proof.
  destruct fuel as [|fuel']; [by rewrite save_O|].
  rewrite save_S. unfold save_step.
  destruct (persist (prepare self) db) as [self2 db1].
  destruct (cascades self2) eqn:Hc.
  -       destruct (for_each _ _ _) as [dbf|] eqn:Hloop; simpl; [|done].
    intros [= <- <-]. exists fuel', db1. rewrite Hc. done.
  - intros [= <- <-]. exists fuel', db1. rewrite Hc. done.
Qed.

Lemma body_unfold fuel flag item db db' :
  body (save fuel) flag item db = Some db' →
  (active item = flag ∧ db' = db) ∨
  (active item ≠ flag ∧
   ∃ self', save fuel (set_active flag item) db = Some (self', db')).
Proof.
  unfold body. destruct (Bool.eqb (active item) flag) eqn:Heq; simpl.
  - apply Bool.eqb_prop in Heq. intros [= <-]. auto.
  - apply Bool.eqb_false_iff in Heq.
    destruct (save fuel _ db) as [[self' db2]|]; simpl; [|done].
    intros [= <-]. eauto.
Qed.

(** The row a nested call writes first. *)
Lemma persist_item flag item j db :
  pk item = Some j →
  persist (prepare (set_active flag item)) db
  = (prepare (set_active flag item),
     <[j := prepare (set_active flag item)]> db).
Proof. intros Hj. apply persist_saved. by rewrite prepare_pk. Qed.

Lemma persist_coords c (db : DB) :
  coords (persist (prepare c) db).1 = coords c.
Proof.
  destruct (persist_spec (prepare c) db) as (k & -> & _). simpl.
  by rewrite coords_set_pk, prepare_coords.
Qed.

Lemma persist_active c (db : DB) :
  active (persist (prepare c) db).1 = active c.
Proof.
  destruct (persist_spec (prepare c) db) as (k & -> & _). simpl.
  apply prepare_active.
Qed.

Lemma persist_lookup c (db : DB) :
  ∃ k, pk (persist (prepare c) db).1 = Some k ∧
       (persist (prepare c) db).2 !! k = Some (persist (prepare c) db).1.
Proof.
  destruct (persist_spec (prepare c) db) as (k & -> & _). simpl.
  exists k. split; [done|]. apply lookup_insert_eq.
Qed.

(** No call changes the nested-set coordinates of a row, once the
    instance itself is written. *)
Lemma save_coords fuel : ∀ self db self' db',
  save fuel self db = Some (self', db') →
  coords <$> db' = coords <$> (persist (prepare self) db).2.
Proof.
  induction fuel as [|fuel IH]; intros self db self' db' Hsave.
  { by rewrite save_O in Hsave. }
  apply save_unfold in Hsave as (fuel' & db1 & [= <-] & -> & Hrest).
  simpl. destruct (cascades self'); [|by subst].
  revert Hrest.
  apply (for_each_inv (λ d : DB, coords <$> d = coords <$> db1)); [done|].
  intros item dbi dbi' Hitem Hinv Hbody.
  apply elem_of_get_descendants in Hitem as (j & r & Hj & -> & _).
  apply body_unfold in Hbody as [[_ ->]|[_ [x Hx]]]; [done|].
  apply IH in Hx. rewrite Hx, (persist_item _ _ j) by done. simpl.
  rewrite <- Hinv.
  destruct (lookup_coords db1 dbi j r) as (r' & Hr' & Hc); [done..|].
  eapply coords_insert_same; [done|].
  by rewrite prepare_coords, coords_set_active, coords_set_pk.
Qed.

(** *** Row properties that writes preserve

    [Q] is a property of stored rows and [Q'] one of fetched items such
    that writing back an item with [Q'] stores a row with [Q]; [F]
    restricts the flag being cascaded. *)
Section Stable.

Context (Q Q' : Category → Prop) (F : bool → Prop).
Hypothesis Q_written :
  ∀ c flag, F flag → Q' c → Q (prepare (set_active flag c)).
Hypothesis Q_fetched : ∀ c k, Q c → Q' (set_pk k c).

Lemma save_stable fuel : ∀ self db self' db' k r,
  F (active self) →
  save fuel self db = Some (self', db') →
  (persist (prepare self) db).2 !! k = Some r → Q r →
  ∃ r', db' !! k = Some r' ∧ Q r'.
Proof.
  induction fuel as [|fuel IH]; intros self db self' db' k r HF Hsave.
  { by rewrite save_O in Hsave. }
  pose proof (persist_active self db) as Hact.
  apply save_unfold in Hsave as (fuel' & db1 & [= <-] & Hp & Hrest).
  rewrite Hp in Hact |- *. simpl in *. intros Hk HQ.
  destruct (cascades self'); [|subst; eauto].
  revert Hrest.
  apply (for_each_inv (λ d : DB, ∃ r', d !! k = Some r' ∧ Q r'));
    [eauto|].
  intros item dbi dbi' Hitem (ri & Hri & HQi) Hbody.
  apply elem_of_get_descendants in Hitem as (j & rj & Hj & -> & _).
  apply body_unfold in Hbody as [[_ ->]|[_ [x Hx]]]; [eauto|].
  assert (F (active self')) as HF' by (by rewrite Hact).
  destruct (decide (j = k)) as [->|Hne].
  - eapply (IH _ _ _ _ k) in Hx; [done|done| |].
    + rewrite (persist_item _ _ k) by done. simpl. apply lookup_insert_eq.
    + apply Q_written; [done|]. apply Q_fetched. congruence.
  - eapply (IH _ _ _ _ k) in Hx; [done|done| |done].
    rewrite (persist_item _ _ j) by done. simpl.
    by rewrite lookup_insert_ne.
Qed.

End Stable.

(** *** Rows at or left of the instance are out of the cascade's reach *)

Lemma lft_coords c c' : coords c = coords c' → lft c = lft c'.
Proof. unfold coords. congruence. Qed.

Lemma save_frame fuel : ∀ self db self' db' k r,
  save fuel self db = Some (self', db') →
  (persist (prepare self) db).2 !! k = Some r →
  lft r ≤ lft self →
  db' !! k = Some r.
Proof.
  induction fuel as [|fuel IH]; intros self db self' db' k r Hsave.
  { by rewrite save_O in Hsave. }
  pose proof (lft_coords _ _ (persist_coords self db)) as Hlft.
  apply save_unfold in Hsave as (fuel' & db1 & [= <-] & Hp & Hrest).
  rewrite Hp in Hlft |- *. simpl in *. intros Hk Hle.
  destruct (cascades self'); [|by subst].
  revert Hrest. apply (for_each_inv (λ d : DB, d !! k = Some r)); [done|].
  intros item dbi dbi' Hitem Hinv Hbody.
  apply elem_of_get_descendants in Hitem as (j & rj & Hj & -> & Hsub).
  apply body_unfold in Hbody as [[_ ->]|[_ [x Hx]]]; [done|].
  destruct Hsub as (_ & Hlo & _).
  assert (j ≠ k) as Hne.
  { intros ->. rewrite Hk in Hj. injection Hj as <-. lia. }
  eapply (IH _ _ _ _ k r) in Hx; [done| |simpl; lia].
  rewrite (persist_item _ _ j) by done. simpl. by rewrite lookup_insert_ne.
Qed.

(** The row written for the instance is the instance that [save]
    returns, and it is still there when [save] returns. *)
Lemma save_own_row fuel self db self' db' :
  save fuel self db = Some (self', db') →
  self' = (persist (prepare self) db).1 ∧
  ∃ k, pk self' = Some k ∧ db' !! k = Some self'.
Proof.
  intros Hsave.
  destruct (persist_lookup self db) as (k & Hpk & Hk).
  pose proof (lft_coords _ _ (persist_coords self db)) as Hlft.
  pose proof (save_frame _ _ _ _ _ k _ Hsave Hk) as Hrow.
  apply save_unfold in Hsave as (fuel' & db1 & _ & Hp & _).
  rewrite Hp in *. simpl in *. split; [done|].
  exists k. split; [done|]. apply Hrow. lia.
Qed.

(** *** Deactivation reaches every descendant *)

(** A call on an inactive instance never turns an inactive row active. *)
Lemma save_keeps_inactive fuel self db self' db' k :
  active self = false →
  save fuel self db = Some (self', db') →
  inactive_at (persist (prepare self) db).2 k → inactive_at db' k.
Proof.
  intros Hact Hsave (r & Hk & Hr).
  apply (save_stable (λ c, active c = false) (λ _, True)
           (λ flag, flag = false)) with fuel self db self' r; try done.
  intros c flag -> _. by rewrite prepare_active.
Qed.

Lemma body_keeps_inactive fuel item j dbi dbi' k :
  pk item = Some j →
  body (save fuel) false item dbi = Some dbi' →
  inactive_at dbi k → inactive_at dbi' k.
Proof.
  intros Hj Hbody Hk.
  apply body_unfold in Hbody as [[_ ->]|[_ [x Hx]]]; [done|].
  eapply save_keeps_inactive; [|done|]; [done|].
  rewrite (persist_item _ _ j) by done. simpl.
  destruct Hk as (r & Hr & Hact).
  destruct (decide (j = k)) as [->|Hne].
  - eexists. rewrite lookup_insert_eq. split; [done|].
    by rewrite prepare_active.
  - exists r. by rewrite lookup_insert_ne.
Qed.

Lemma body_deactivates fuel item j dbi dbi' :
  pk item = Some j →
  (active item = false → inactive_at dbi j) →
  body (save fuel) false item dbi = Some dbi' →
  inactive_at dbi' j.
Proof.
  intros Hj Hstale Hbody.
  apply body_unfold in Hbody as [[Hact ->]|[_ [x Hx]]]; [auto|].
  eapply save_keeps_inactive; [|done|]; [done|].
  rewrite (persist_item _ _ j) by done. simpl.
  eexists. rewrite lookup_insert_eq. split; [done|].
  by rewrite prepare_active.
Qed.

Lemma loop_keeps_inactive fuel items dbi dbf k :
  (∀ x, x ∈ items → is_Some (pk x)) →
  for_each items (body (save fuel) false) dbi = Some dbf →
  inactive_at dbi k → inactive_at dbf k.
Proof.
  intros Hpk Hloop Hk. revert Hloop.
  apply (for_each_inv (λ d : DB, inactive_at d k)); [done|].
  intros x s1 s2 Hx Hs1 Hbody. destruct (Hpk x Hx) as [j Hj].
  by eapply body_keeps_inactive.
Qed.

Lemma loop_deactivates fuel items : ∀ dbi dbf,
  (∀ x, x ∈ items →
        ∃ j, pk x = Some j ∧ (active x = false → inactive_at dbi j)) →
  for_each items (body (save fuel) false) dbi = Some dbf →
  ∀ x, x ∈ items → ∃ j, pk x = Some j ∧ inactive_at dbf j.
Proof.
  induction items as [|y rest IH]; intros dbi dbf Hitems Hloop x Hx.
  { by apply elem_of_nil in Hx. }
  simpl in Hloop.
  destruct (body (save fuel) false y dbi) as [dbi'|] eqn:Hbody; [|done].
  simpl in Hloop.
  destruct (Hitems y) as (jy & Hjy & Hstale); [left|].
  assert (∀ z, z ∈ rest → is_Some (pk z)) as Hpks.
  { intros z Hz. destruct (Hitems z) as (j & -> & _); [by right|eauto]. }
  apply elem_of_cons in Hx as [->|Hx].
  - exists jy. split; [done|].
    eapply loop_keeps_inactive; [done..|].
    by eapply body_deactivates.
  - eapply (IH dbi'); [|done..].
    intros z Hz. destruct (Hitems z) as (j & Hj & Hst); [by right|].
    exists j. split; [done|]. intros Hact.
    eapply (body_keeps_inactive fuel y jy dbi); auto.
Qed.

Lemma save_cascade fuel self db self' db' :
  active self = false →
  save fuel self db = Some (self', db') →
  cascades self' = true →
  ∀ d, d ∈ get_descendants self' db' → active d = false.
Proof.
  intros Hact Hsave Hc d Hd.
  pose proof (save_coords _ _ _ _ _ Hsave) as Hcoords.
  pose proof (persist_active self db) as Hact'.
  apply save_unfold in Hsave as (fuel' & db1 & _ & Hp & Hrest).
  rewrite Hp in *. simpl in *. rewrite Hc in Hrest.
  rewrite Hact' , Hact in Hrest.
  apply elem_of_get_descendants in Hd as (k & r' & Hk & -> & Hsub).
  destruct (lookup_coords db' db1 k r') as (r1 & Hr1 & Hc1); [done..|].
  assert (∀ x, x ∈ get_descendants self' db1 →
            ∃ j, pk x = Some j ∧ (active x = false → inactive_at db1 j))
    as Hitems.
  { intros x Hx.
    apply elem_of_get_descendants in Hx as (j & rj & Hj & -> & _).
    exists j. split; [done|]. intros Hin. exists rj. done. }
  destruct (loop_deactivates _ _ _ _ Hitems Hrest (set_pk (Some k) r1))
    as (j & [= <-] & r2 & Hr2 & Hin).
  - apply elem_of_get_descendants. exists k, r1. split_and!; [done..|].
    eapply in_subtree_coords; [done| |done]. done.
  - simpl. congruence.
Qed.

(** *** Enough fuel *)

Lemma above_coords (db db' : DB) l :
  coords <$> db = coords <$> db' → above l db = above l db'.
Proof. unfold above. by intros ->. Qed.

Lemma above_lt (db : DB) j r l :
  db !! j = Some r → l < lft r → (above (lft r) db < above l db)%nat.
Proof.
  intros Hj Hl. unfold above.
  set (rows := map_to_list (coords <$> db)).
  set (P := λ kc : Z * (Z * Z * Z), lft r < kc.2.1.2).
  set (Q := λ kc : Z * (Z * Z * Z), l < kc.2.1.2).
  assert (filter P rows = filter P (filter Q rows)) as ->.
  { rewrite list_filter_filter. apply list_filter_iff.
    intros x. unfold P, Q. lia. }
  apply (length_filter_lt _ _ (j, coords r)).
  - apply list_elem_of_filter. split; [unfold Q; simpl; lia|].
    apply elem_of_map_to_list. by rewrite lookup_fmap, Hj.
  - unfold P. simpl. lia.
Qed.

Lemma above_size (db : DB) l : (above l db ≤ size db)%nat.
Proof.
  unfold above. etrans; [apply length_filter|].
  by rewrite length_map_to_list, map_size_fmap.
Qed.

Lemma save_total_above fuel : ∀ self db,
  (above (lft self) (persist (prepare self) db).2 < fuel)%nat →
  is_Some (save fuel self db).
Proof.
  induction fuel as [|fuel IH]; intros self db Hfuel; [lia|].
  pose proof (lft_coords _ _ (persist_coords self db)) as Hlft.
  rewrite save_S. unfold save_step.
  destruct (persist (prepare self) db) as [self2 db1]. simpl in *.
  destruct (cascades self2); [|eauto].
  destruct (for_each_is_Some (λ d : DB, coords <$> d = coords <$> db1)
              (get_descendants self2 db1)
              (body (save fuel) (active self2)) db1)
    as [dbf ->]; [done| |simpl; eauto].
  intros item dbi Hitem Hinv.
  apply elem_of_get_descendants in Hitem as (j & rj & Hj & -> & Hsub).
  destruct Hsub as (_ & Hlo & _).
  unfold body. destruct (negb _); [|eauto].
  destruct (lookup_coords db1 dbi j rj) as (ri & Hri & Hci); [done..|].
  assert (coords <$> (persist (prepare (set_active (active self2)
                        (set_pk (Some j) rj))) dbi).2 = coords <$> db1)
    as Hsame.
  { rewrite (persist_item _ _ j) by done. simpl. rewrite <- Hinv.
    eapply coords_insert_same; [done|].
    by rewrite prepare_coords, coords_set_active, coords_set_pk. }
  destruct (IH (set_active (active self2) (set_pk (Some j) rj)) dbi)
    as [[x dbi'] Hx].
  - rewrite (above_coords _ db1) by done. simpl.
    pose proof (above_lt db1 j rj (lft self2) Hj) as Hlt.
    rewrite <- Hlft in Hfuel. lia.
  - rewrite Hx. simpl. exists dbi'. split; [done|].
    apply save_coords in Hx. by rewrite Hx.
Qed.

Lemma save_total fuel self db :
  (size db + 1 < fuel)%nat → is_Some (save fuel self db).
Proof.
  intros Hfuel. apply save_total_above.
  eapply Nat.le_lt_trans; [apply above_size|].
  destruct (persist_spec (prepare self) db) as (k & -> & _). simpl.
  rewrite map_size_insert. destruct (db !! k); simpl; lia.
Qed.

End Cascade.

(** ** Slugs under the cascade *)

Section CascadeSlug.

Context (prepare : Category → Category) (cascades : Category → bool)
        (save : nat → Category → DB → option (Category * DB)).

Hypothesis save_O : ∀ self db, save O self db = None.
Hypothesis save_S : ∀ fuel self db,
  save (S fuel) self db = save_step prepare cascades (save fuel) self db.
Hypothesis prepare_pk : ∀ c, pk (prepare c) = pk c.
Hypothesis prepare_coords : ∀ c, coords (prepare c) = coords c.
Hypothesis prepare_active : ∀ c, active (prepare c) = active c.
Hypothesis prepare_slug : ∀ c, slug c ≠ "" → slug (prepare c) = slug c.

(** The instance comes back with the slug that [prepare] gave it, its
    row is stored as returned, and every other row that had a slug keeps
    it. *)
Lemma save_slugs fuel self db self' db' :
  save fuel self db = Some (self', db') →
  ∃ k, pk self' = Some k ∧ db' !! k = Some self'
       ∧ slug self' = slug (prepare self)
       ∧ ∀ j r, db !! j = Some r → slug r ≠ "" → j ≠ k →
                ∃ r', db' !! j = Some r' ∧ slug r' = slug r.
Proof.
  intros Hsave.
  destruct (save_own_row _ _ _ save_O save_S prepare_pk prepare_coords
              _ _ _ _ _ Hsave) as (Hself & k & Hpk & Hk).
  exists k. split_and!; [done..| |].
  - rewrite Hself.
    by destruct (persist_spec (prepare self) db) as (k' & -> & _).
  - intros j r Hj Hr Hne.
    apply (save_stable _ _ _ save_O save_S prepare_pk prepare_active
             (λ c, slug c = slug r) (λ c, slug c = slug r) (λ _, True))
      with fuel self db self' r; try done.
    + intros c flag _ Hc. rewrite prepare_slug; simpl; congruence.
    + destruct (persist_spec (prepare self) db) as (k' & Hp & _).
      rewrite Hp in *. simpl in *. subst self'. simpl in Hpk.
      rewrite lookup_insert_ne; congruence.
Qed.

End CascadeSlug.

(** ** Both [save] methods have the shape [save_step] *)

Section Saves.

Context `{Settings}.

Lemma base_save_O self db : CategoryBase.save 0 self db = None.
Proof. reflexivity. Qed.

Lemma base_save_S fuel self db :
  CategoryBase.save (S fuel) self db
  = save_step CategoryBase.fill_slug base_cascades
      (CategoryBase.save fuel) self db.
Proof. reflexivity. Qed.

Lemma models_save_O self db : Models.save 0 self db = None.
Proof. reflexivity. Qed.

Lemma models_save_S fuel self db :
  Models.save (S fuel) self db
  = save_step models_prepare models_cascades (Models.save fuel) self db.
Proof.
  simpl. unfold save_step, models_prepare.
  by destruct (persist _ db).
Qed.

Lemma base_fill_slug_pk c : pk (CategoryBase.fill_slug c) = pk c.
Proof. unfold CategoryBase.fill_slug. by case_decide. Qed.

Lemma base_fill_slug_coords c :
  coords (CategoryBase.fill_slug c) = coords c.
Proof. unfold CategoryBase.fill_slug. by case_decide. Qed.

Lemma base_fill_slug_active c :
  active (CategoryBase.fill_slug c) = active c.
Proof. unfold CategoryBase.fill_slug. by case_decide. Qed.

Lemma base_fill_slug_blank c :
  slug c = "" →
  slug (CategoryBase.fill_slug c)
  = substring 0 50 (slugify (SLUG_TRANSLITERATOR (name c))).
Proof. unfold CategoryBase.fill_slug. intros Hs. by case_decide. Qed.

Lemma base_fill_slug_set c :
  slug c ≠ "" → CategoryBase.fill_slug c = c.
Proof. unfold CategoryBase.fill_slug. intros Hs. by case_decide. Qed.

Lemma base_fill_slug_keeps c :
  slug c ≠ "" → slug (CategoryBase.fill_slug c) = slug c.
Proof. intros Hs. by rewrite base_fill_slug_set. Qed.

Lemma models_prepare_pk c : pk (models_prepare c) = pk c.
Proof.
  unfold models_prepare, Models.fill_thumbnail_size, Models.fill_slug.
  case_decide; by destruct (thumbnail _) as [[]|].
Qed.

Lemma models_prepare_coords c : coords (models_prepare c) = coords c.
Proof.
  unfold models_prepare, Models.fill_thumbnail_size, Models.fill_slug.
  case_decide; by destruct (thumbnail _) as [[]|].
Qed.

Lemma models_prepare_active c : active (models_prepare c) = active c.
Proof.
  unfold models_prepare, Models.fill_thumbnail_size, Models.fill_slug.
  case_decide; by destruct (thumbnail _) as [[]|].
Qed.

Lemma models_prepare_blank c :
  slug c = "" →
  slug (models_prepare c) = substring 0 50 (slugify (name c)).
Proof.
  unfold models_prepare, Models.fill_thumbnail_size, Models.fill_slug.
  intros Hs. case_decide; [|done]. by destruct (thumbnail _) as [[]|].
Qed.

Lemma models_prepare_set c :
  slug c ≠ "" → slug (models_prepare c) = slug c.
Proof.
  unfold models_prepare, Models.fill_thumbnail_size, Models.fill_slug.
  intros Hs. case_decide; [done|]. by destruct (thumbnail _) as [[]|].
Qed.

End Saves.

(** ** The rows of the table that the cascade reaches *)

Section CascadeReach.

Context (prepare : Category → Category) (cascades : Category → bool)
        (save : nat → Category → DB → option (Category * DB)).

Hypothesis save_O : ∀ self db, save O self db = None.
Hypothesis save_S : ∀ fuel self db,
  save (S fuel) self db = save_step prepare cascades (save fuel) self db.
Hypothesis prepare_pk : ∀ c, pk (prepare c) = pk c.
Hypothesis prepare_coords : ∀ c, coords (prepare c) = coords c.

(** The instance comes back with its key and its coordinates, and its row
    is stored. *)
Lemma save_returns fuel self db self' db' :
  save fuel self db = Some (self', db') →
  coords self' = coords self
  ∧ ∃ k, pk self' = Some k ∧ db' !! k = Some self'.
Proof.
  intros Hsave.
  destruct (save_own_row _ _ _ save_O save_S prepare_pk prepare_coords
              _ _ _ _ _ Hsave) as (Hself & Hrow).
  split; [|done]. rewrite Hself. apply (persist_coords _ prepare_coords).
Qed.

(** When the subtree of the returned instance has one flag in the table
    that [save] leaves, every row that the table given to [save] had in
    the instance's subtree is still there and has that flag. *)
Lemma save_reaches fuel self db self' db' flag :
  save fuel self db = Some (self', db') →
  active self' = flag →
  (∀ d, d ∈ get_descendants self' db' → active d = flag) →
  ∀ j r, db !! j = Some r → in_subtree self r →
         ∃ r', db' !! j = Some r' ∧ active r' = flag.
Proof.
  intros Hsave Hflag Hall j r Hj Hsub.
  pose proof (save_coords _ _ _ save_O save_S prepare_pk prepare_coords
                _ _ _ _ _ Hsave) as Hcoords.
  destruct (save_returns _ _ _ _ _ Hsave) as (Hc & k & Hpk & Hk).
  destruct (decide (j = k)) as [->|Hne]; [by exists self'|].
  assert ((persist (prepare self) db).2 !! j = Some r) as Hj1.
  { destruct (save_own_row _ _ _ save_O save_S prepare_pk prepare_coords
                _ _ _ _ _ Hsave) as (Hself & _).
    destruct (persist_spec (prepare self) db) as (k' & Hp & _).
    rewrite Hp in *. simpl in *. subst self'. simpl in *.
    rewrite lookup_insert_ne; [done|congruence]. }
  symmetry in Hcoords.
  destruct (lookup_coords _ _ j r Hcoords Hj1) as (r' & Hr' & Hcr).
  exists r'. split; [done|].
  apply (Hall (set_pk (Some j) r')).
  apply elem_of_get_descendants. exists j, r'. split_and!; [done..|].
  eapply in_subtree_coords; [symmetry; exact Hc|symmetry; exact Hcr|done].
Qed.

End CascadeReach.

(** ** Activation and deactivation *)

(** [CategoryBase.save] on an active instance writes the instance's row and
    nothing else: no row under another key changes. *)
Theorem base_save_active_frame `{Settings} fuel self db :
  active self = true →
  CategoryBase.save (S fuel) self db
  = Some (persist (CategoryBase.fill_slug self) db)
  ∧ ∀ k, pk (persist (CategoryBase.fill_slug self) db).1 ≠ Some k →
         (persist (CategoryBase.fill_slug self) db).2 !! k = db !! k.
Proof.
  intros Hact. split.
  - rewrite base_save_S. unfold save_step.
    pose proof (persist_active CategoryBase.fill_slug base_fill_slug_active
                  self db) as Hact'.
    destruct (persist _ db) as [self2 db1]. simpl in Hact'.
    unfold base_cascades. by rewrite Hact', Hact.
  - intros k Hk.
    destruct (persist_spec (CategoryBase.fill_slug self) db) as (j & Hp & _).
    rewrite Hp in *. simpl in *. apply lookup_insert_ne. congruence.
Qed.

Lemma base_save_active_frame_witness :
  @CategoryBase.save default_settings 1 (node_a true) (abc false)
  = Some (node_a true, <[1 := node_a true]> (abc false))
  ∧ ∀ k, pk (node_a true) ≠ Some k →
         <[1 := node_a true]> (abc false) !! k = abc false !! k.
Proof.
  apply (@base_save_active_frame default_settings 0). reflexivity.
Defined.

(** C1. [Category.save] (models.py) enters the loop over the descendants
    whatever [self.active] is: in the tree [A -> B -> C] with all three rows
    inactive, saving [B] with [active = True] turns its descendant [C]
    active, whereas [CategoryBase.save] (base.py) leaves [C] as it was. *)
Theorem models_save_activation_cascades :
  let db := abc false in
  let b := set_active true (node_b false) in
  pk <$> get_descendants b db = [Some 3]
  ∧ active <$> db !! 3 = Some false
  ∧ (r ← @Models.save default_settings 3 b db; active <$> r.2 !! 3)
    = Some true
  ∧ (r ← @CategoryBase.save default_settings 3 b db; active <$> r.2 !! 3)
    = Some false.
Proof. vm_compute. done. Qed.

(** C2. [save] of an instance with [active = False] returns, as soon as
    the fuel exceeds the number of rows by two; the instance comes back
    inactive, with its coordinates, and its row is stored; every row that
    the table had in the instance's subtree is still there and is
    inactive; and every row of the instance's subtree in the table left
    behind is inactive.  Both for [CategoryBase.save] and for
    [Category.save]. *)
Theorem deactivation_cascades `{Settings} self db fuel :
  active self = false →
  (size db + 1 < fuel)%nat →
  (∃ self' db' k,
      CategoryBase.save fuel self db = Some (self', db')
      ∧ pk self' = Some k ∧ db' !! k = Some self'
      ∧ active self' = false ∧ coords self' = coords self
      ∧ (∀ j r, db !! j = Some r → in_subtree self r →
                ∃ r', db' !! j = Some r' ∧ active r' = false)
      ∧ ∀ d, d ∈ get_descendants self' db' → active d = false)
  ∧ (∃ self' db' k,
      Models.save fuel self db = Some (self', db')
      ∧ pk self' = Some k ∧ db' !! k = Some self'
      ∧ active self' = false ∧ coords self' = coords self
      ∧ (∀ j r, db !! j = Some r → in_subtree self r →
                ∃ r', db' !! j = Some r' ∧ active r' = false)
      ∧ ∀ d, d ∈ get_descendants self' db' → active d = false).
Proof.
  intros Hact Hfuel. split.
  - destruct (save_total CategoryBase.fill_slug base_cascades
                CategoryBase.save base_save_O base_save_S base_fill_slug_pk
                base_fill_slug_coords fuel self db Hfuel)
      as [[self' db'] Hsave].
    destruct (save_returns _ _ _ base_save_O base_save_S base_fill_slug_pk
                base_fill_slug_coords _ _ _ _ _ Hsave)
      as (Hcoords & k & Hpk & Hk).
    pose proof (save_own_row _ _ _ base_save_O base_save_S base_fill_slug_pk
                  base_fill_slug_coords _ _ _ _ _ Hsave) as [Hself _].
    pose proof (persist_active _ base_fill_slug_active self db) as Hact'.
    rewrite <- Hself, Hact in Hact'.
    assert (∀ d, d ∈ get_descendants self' db' → active d = false) as Hall.
    { apply (save_cascade _ _ _ base_save_O base_save_S base_fill_slug_pk
               base_fill_slug_coords base_fill_slug_active fuel self db);
        [done|done|].
      unfold base_cascades. by rewrite Hact'. }
    exists self', db', k. split_and!; [done..| |done].
    by apply (save_reaches _ _ _ base_save_O base_save_S base_fill_slug_pk
                base_fill_slug_coords fuel self db self' db' false).
  - destruct (save_total models_prepare models_cascades
                Models.save models_save_O models_save_S models_prepare_pk
                models_prepare_coords fuel self db Hfuel)
      as [[self' db'] Hsave].
    destruct (save_returns _ _ _ models_save_O models_save_S
                models_prepare_pk models_prepare_coords _ _ _ _ _ Hsave)
      as (Hcoords & k & Hpk & Hk).
    pose proof (save_own_row _ _ _ models_save_O models_save_S
                  models_prepare_pk models_prepare_coords _ _ _ _ _ Hsave)
      as [Hself _].
    pose proof (persist_active _ models_prepare_active self db) as Hact'.
    rewrite <- Hself, Hact in Hact'.
    assert (∀ d, d ∈ get_descendants self' db' → active d = false) as Hall.
    { by apply (save_cascade _ _ _ models_save_O models_save_S
                  models_prepare_pk models_prepare_coords
                  models_prepare_active fuel self db). }
    exists self', db', k. split_and!; [done..| |done].
    by apply (save_reaches _ _ _ models_save_O models_save_S
                models_prepare_pk models_prepare_coords fuel self db
                self' db' false).
Qed.

Lemma deactivation_cascades_witness :
  (∃ self' db' k,
      @CategoryBase.save default_settings 5 (node_a false) (abc true)
      = Some (self', db')
      ∧ pk self' = Some k ∧ db' !! k = Some self'
      ∧ active self' = false ∧ coords self' = (1, 1, 6)
      ∧ (∀ j r, abc true !! j = Some r → in_subtree (node_a false) r →
                ∃ r', db' !! j = Some r' ∧ active r' = false)
      ∧ ∀ d, d ∈ get_descendants self' db' → active d = false)
  ∧ (∃ self' db' k,
      @Models.save default_settings 5 (node_a false) (abc true)
      = Some (self', db')
      ∧ pk self' = Some k ∧ db' !! k = Some self'
      ∧ active self' = false ∧ coords self' = (1, 1, 6)
      ∧ (∀ j r, abc true !! j = Some r → in_subtree (node_a false) r →
                ∃ r', db' !! j = Some r' ∧ active r' = false)
      ∧ ∀ d, d ∈ get_descendants self' db' → active d = false).
Proof.
  apply (@deactivation_cascades default_settings (node_a false) (abc true) 5).
  - reflexivity.
  - vm_compute. lia.
Defined.

(** ** Slug assignment *)

(** C6. When the slug is blank, [save] returns the instance, and stores its
    row, with the slug set to the first 50 characters of the slugified name
    ([CategoryBase.save] transliterates the name first).  With Django's
    [slugify] and the default settings a fresh node named "Hello World"
    comes back with the slug "hello-world". *)
Theorem save_fills_blank_slug :
  (∀ (cfg : Settings) self db fuel,
     slug self = "" →
     (size db + 1 < fuel)%nat →
     (∃ self' db' k,
         CategoryBase.save fuel self db = Some (self', db')
         ∧ slug self'
           = substring 0 50 (slugify (SLUG_TRANSLITERATOR (name self)))
         ∧ pk self' = Some k ∧ db' !! k = Some self')
     ∧ (∃ self' db' k,
         Models.save fuel self db = Some (self', db')
         ∧ slug self' = substring 0 50 (slugify (name self))
         ∧ pk self' = Some k ∧ db' !! k = Some self'))
  ∧ (∀ self db fuel,
       name self = "Hello World" → slug self = "" →
       (size db + 1 < fuel)%nat →
       (∃ self' db' k,
           @CategoryBase.save default_settings fuel self db = Some (self', db')
           ∧ slug self' = "hello-world"
           ∧ pk self' = Some k ∧ db' !! k = Some self')
       ∧ (∃ self' db' k,
           @Models.save default_settings fuel self db = Some (self', db')
           ∧ slug self' = "hello-world"
           ∧ pk self' = Some k ∧ db' !! k = Some self')).
Proof.
  assert (∀ (cfg : Settings) self db fuel,
     slug self = "" →
     (size db + 1 < fuel)%nat →
     (∃ self' db' k,
         CategoryBase.save fuel self db = Some (self', db')
         ∧ slug self'
           = substring 0 50 (slugify (SLUG_TRANSLITERATOR (name self)))
         ∧ pk self' = Some k ∧ db' !! k = Some self')
     ∧ (∃ self' db' k,
         Models.save fuel self db = Some (self', db')
         ∧ slug self' = substring 0 50 (slugify (name self))
         ∧ pk self' = Some k ∧ db' !! k = Some self')) as Hgen.
  { intros cfg self db fuel Hblank Hfuel. split.
    - destruct (save_total CategoryBase.fill_slug base_cascades
                  CategoryBase.save base_save_O base_save_S base_fill_slug_pk
                  base_fill_slug_coords fuel self db Hfuel)
        as [[self' db'] Hsave].
      destruct (save_slugs _ _ _ base_save_O base_save_S base_fill_slug_pk
                  base_fill_slug_coords base_fill_slug_active
                  base_fill_slug_keeps _ _ _ _ _ Hsave)
        as (k & Hpk & Hk & Hslug & _).
      exists self', db', k. split_and!; [done| |done..].
      by rewrite Hslug, base_fill_slug_blank.
    - destruct (save_total models_prepare models_cascades
                  Models.save models_save_O models_save_S models_prepare_pk
                  models_prepare_coords fuel self db Hfuel)
        as [[self' db'] Hsave].
      destruct (save_slugs _ _ _ models_save_O models_save_S
                  models_prepare_pk models_prepare_coords
                  models_prepare_active models_prepare_set _ _ _ _ _ Hsave)
        as (k & Hpk & Hk & Hslug & _).
      exists self', db', k. split_and!; [done| |done..].
      by rewrite Hslug, models_prepare_blank. }
  split; [exact Hgen|].
  intros self db fuel Hname Hblank Hfuel.
  destruct (Hgen default_settings self db fuel Hblank Hfuel) as [Hb Hm].
  rewrite Hname in Hb, Hm. exact (conj Hb Hm).
Qed.

Lemma save_fills_blank_slug_witness :
  (∃ self' db' k,
      @CategoryBase.save default_settings 5 hello_world (abc true)
      = Some (self', db')
      ∧ slug self' = "hello-world"
      ∧ pk self' = Some k ∧ db' !! k = Some self')
  ∧ (∃ self' db' k,
      @Models.save default_settings 5 hello_world (abc true)
      = Some (self', db')
      ∧ slug self' = "hello-world"
      ∧ pk self' = Some k ∧ db' !! k = Some self').
Proof.
  apply (proj2 save_fills_blank_slug hello_world (abc true) 5%nat).
  - reflexivity.
  - reflexivity.
  - vm_compute. lia.
Defined.

(** C10. When the slug is not blank, [save] returns the instance, and
    stores its row, with the slug unchanged; and every other stored row
    whose slug is not blank, descendants included, keeps its slug. *)
Theorem save_keeps_slug `{Settings} self db fuel :
  slug self ≠ "" →
  (size db + 1 < fuel)%nat →
  (∃ self' db' k,
      CategoryBase.save fuel self db = Some (self', db')
      ∧ slug self' = slug self
      ∧ pk self' = Some k ∧ db' !! k = Some self'
      ∧ ∀ j r, db !! j = Some r → slug r ≠ "" → j ≠ k →
               ∃ r', db' !! j = Some r' ∧ slug r' = slug r)
  ∧ (∃ self' db' k,
      Models.save fuel self db = Some (self', db')
      ∧ slug self' = slug self
      ∧ pk self' = Some k ∧ db' !! k = Some self'
      ∧ ∀ j r, db !! j = Some r → slug r ≠ "" → j ≠ k →
               ∃ r', db' !! j = Some r' ∧ slug r' = slug r).
Proof.
  intros Hset Hfuel. split.
  - destruct (save_total CategoryBase.fill_slug base_cascades
                CategoryBase.save base_save_O base_save_S base_fill_slug_pk
                base_fill_slug_coords fuel self db Hfuel)
      as [[self' db'] Hsave].
    destruct (save_slugs _ _ _ base_save_O base_save_S base_fill_slug_pk
                base_fill_slug_coords base_fill_slug_active
                base_fill_slug_keeps _ _ _ _ _ Hsave)
      as (k & Hpk & Hk & Hslug & Hothers).
    exists self', db', k. split_and!; [done| |done..].
    by rewrite Hslug, base_fill_slug_set.
  - destruct (save_total models_prepare models_cascades
                Models.save models_save_O models_save_S models_prepare_pk
                models_prepare_coords fuel self db Hfuel)
      as [[self' db'] Hsave].
    destruct (save_slugs _ _ _ models_save_O models_save_S
                models_prepare_pk models_prepare_coords
                models_prepare_active models_prepare_set _ _ _ _ _ Hsave)
      as (k & Hpk & Hk & Hslug & Hothers).
    exists self', db', k. split_and!; [done| |done..].
    by rewrite Hslug, models_prepare_set.
Qed.

Lemma save_keeps_slug_witness :
  (∃ self' db' k,
      @CategoryBase.save default_settings 5 (node_a false) (abc true)
      = Some (self', db')
      ∧ slug self' = "a"
      ∧ pk self' = Some k ∧ db' !! k = Some self'
      ∧ ∀ j r, abc true !! j = Some r → slug r ≠ "" → j ≠ k →
               ∃ r', db' !! j = Some r' ∧ slug r' = slug r)
  ∧ (∃ self' db' k,
      @Models.save default_settings 5 (node_a false) (abc true)
      = Some (self', db')
      ∧ slug self' = "a"
      ∧ pk self' = Some k ∧ db' !! k = Some self'
      ∧ ∀ j r, abc true !! j = Some r → slug r ≠ "" → j ≠ k →
               ∃ r', db' !! j = Some r' ∧ slug r' = slug r).
Proof.
  apply (@save_keeps_slug default_settings (node_a false) (abc true) 5).
  - discriminate.
  - vm_compute. lia.
Defined.

(** ** Display names *)

(** [Category.generate_unicode_name] (models.py) follows the rule of the
    spec: the first ancestor is left out unless its slug is allow-listed. *)
Theorem models_unicode_spec self db :
  (unicode_name self = None ∨ unicode_name self = Some "" →
   Models.unicode self db
   = String.concat " > "
       ((name <$> spec_display_ancestors (get_ancestors self false db))
        ++ [name self]))
  ∧ (∀ u, unicode_name self = Some u → u ≠ "" → Models.unicode self db = u).
Proof.
  assert (Models.generate_unicode_name self db
          = String.concat " > "
              ((name <$> spec_display_ancestors (get_ancestors self false db))
               ++ [name self])) as Hgen.
  { unfold Models.generate_unicode_name, spec_display_ancestors,
      kept_root_slugs, force_unicode.
    destruct (get_ancestors self false db) as [|first rest]; [done|].
    destruct (String.eqb_spec (slug first) "magazine") as [Hm|Hm];
      destruct (String.eqb_spec (slug first) "nextgov-categories") as [Hn|Hn];
      simpl;
      destruct (decide (slug first ∈ ["magazine"; "nextgov-categories"]))
        as [Hin|Hin]; try done; exfalso; revert Hin;
      rewrite !elem_of_cons, elem_of_nil; tauto. }
  unfold Models.unicode. split.
  - intros [-> | ->]; [done|]. by case_decide.
  - intros u -> Hu. by case_decide.
Qed.

(** [CategoryBase.generate_unicode_name] (base.py) joins the names of all
    ancestors, whatever the slug of the first one. *)
Theorem base_generate_unicode_name_all self db :
  CategoryBase.generate_unicode_name self db
  = String.concat " > "
      ((name <$> get_ancestors self false db) ++ [name self]).
Proof. reflexivity. Qed.

(** C3. In the tree [A -> B -> C], whose root has the slug "a",
    [CategoryBase.__unicode__] (base.py) of [C] keeps the root's name,
    where the breadcrumb rule, and [Category.__unicode__] (models.py),
    leave it out. *)
Theorem base_unicode_keeps_first_ancestor :
  let db := abc true in
  slug <$> get_ancestors (node_c true) false db = ["a"; "b"]
  ∧ unicode_name (node_c true) = None
  ∧ CategoryBase.unicode (node_c true) db = "A > B > C"
  ∧ Models.unicode (node_c true) db = "B > C"
  ∧ String.concat " > "
      ((name <$> spec_display_ancestors (get_ancestors (node_c true) false db))
       ++ [name (node_c true)]) = "B > C".
Proof. vm_compute. done. Qed.

(** ** Category paths *)

Lemma all_categories_loop_snoc delimiter ancestors category :
  CategoryBase.all_categories_loop delimiter (ancestors ++ [category])
  = CategoryBase.all_categories_loop delimiter ancestors
    ++ [String.concat delimiter
          (CategoryBase.all_categories_loop delimiter ancestors
           ++ [name category])].
Proof. unfold CategoryBase.all_categories_loop. by rewrite fold_left_app. Qed.

(** One path per ancestor level. *)
Lemma all_categories_loop_length delimiter ancestors :
  length (CategoryBase.all_categories_loop delimiter ancestors)
  = length ancestors.
Proof.
  induction ancestors as [|category ancestors IH] using rev_ind; [done|].
  rewrite all_categories_loop_snoc, !length_app, IH. done.
Qed.

(** Down to the second level the paths are the joined names. *)
Lemma all_categories_loop_two delimiter a b :
  CategoryBase.all_categories_loop delimiter [a; b]
  = [spec_path delimiter [name a; name b] 0;
     spec_path delimiter [name a; name b] 1].
Proof. reflexivity. Qed.

(** C4. In the tree [A -> B -> C], [all_categories] of [C] has one path per
    level and the first two are the joined names, but the third one joins
    the two earlier paths and the name: "A::A::B::C", not "A::B::C". *)
Theorem all_categories_repeats_prefixes :
  let db := abc true in
  let self := mkInstance (node_c true) ∅ in
  name <$> get_ancestors (fields self) true db = ["A"; "B"; "C"]
  ∧ (CategoryBase.all_categories self "::" db).1
    = Some ["A"; "A::B"; "A::A::B::C"]
  ∧ spec_path "::" ["A"; "B"; "C"] 2 = "A::B::C".
Proof. vm_compute. done. Qed.

(** C9. On an instance without an attribute named [__all_categories],
    [all_categories] computes the paths from the ancestors now in the
    table, and it leaves the instance without such an attribute: so does
    the next call, on whatever the table has become. *)
Theorem all_categories_recomputes (self : Instance) d1 d2 (db1 db2 : DB) :
  hasattr self "__all_categories" = false →
  let r1 := CategoryBase.all_categories self d1 db1 in
  let r2 := CategoryBase.all_categories r1.2 d2 db2 in
  r1.1 = Some (CategoryBase.all_categories_loop d1
                 (get_ancestors (fields self) true db1))
  ∧ hasattr r1.2 "__all_categories" = false
  ∧ r2.1 = Some (CategoryBase.all_categories_loop d2
                   (get_ancestors (fields self) true db2))
  ∧ hasattr r2.2 "__all_categories" = false.
Proof.
  intros Hno.
  assert (∀ o d db,
    hasattr o "__all_categories" = false →
    CategoryBase.all_categories o d db
    = (Some (CategoryBase.all_categories_loop d
               (get_ancestors (fields o) true db)),
       setattr o "_CategoryBase__all_categories"
         (CategoryBase.all_categories_loop d
            (get_ancestors (fields o) true db)))) as Hcall.
  { intros o d db Ho. unfold CategoryBase.all_categories. by rewrite Ho. }
  assert (∀ o v,
    hasattr o "__all_categories" = false →
    hasattr (setattr o "_CategoryBase__all_categories" v) "__all_categories"
    = false) as Hset.
  { intros o v. unfold hasattr, setattr. simpl.
    by rewrite lookup_insert_ne. }
  simpl. rewrite (Hcall self) by done. simpl.
  rewrite Hcall by auto. simpl. split_and!; auto.
Qed.

Lemma all_categories_recomputes_witness :
  let self := mkInstance (node_c true) ∅ in
  let r1 := CategoryBase.all_categories self "::" (abc true) in
  let r2 := CategoryBase.all_categories r1.2 "::" abc_renamed in
  r1.1 = Some ["A"; "A::B"; "A::A::B::C"]
  ∧ hasattr r1.2 "__all_categories" = false
  ∧ r2.1 = Some ["News"; "News::B"; "News::News::B::C"]
  ∧ hasattr r2.2 "__all_categories" = false.
Proof.
  apply (all_categories_recomputes (mkInstance (node_c true) ∅) "::" "::"
           (abc true) abc_renamed).
  reflexivity.
Defined.

(** ** URLs *)

(** C5. [get_absolute_url] returns a non-empty [alternate_url] as it is;
    otherwise the base path, the slugs of the ancestors and the node with
    the first of them left out, joined by "/", and a closing "/". *)
Theorem get_absolute_url_spec `{Settings} self db :
  (alternate_url self ≠ "" →
   Models.get_absolute_url self db = alternate_url self)
  ∧ (alternate_url self = "" →
     Models.get_absolute_url self db
     = reverse_categories_tree_list
       +:+ String.concat "/"
             (slug <$> tail (get_ancestors self false db ++ [self]))
       +:+ "/").
Proof.
  unfold Models.get_absolute_url. split; intros Hurl; case_decide; try done.
  case_decide as Hlen; [done|].
  rewrite length_app in Hlen. simpl in Hlen. lia.
Qed.

Lemma get_absolute_url_spec_witness :
  @Models.get_absolute_url default_settings
    (set_alternate_url "http://example.com/c" (node_c true)) (abc true)
  = "http://example.com/c"
  ∧ @Models.get_absolute_url default_settings (node_c true) (abc true)
    = "/categories/b/c/".
Proof.
  split.
  - apply (proj1 (@get_absolute_url_spec default_settings
                    (set_alternate_url "http://example.com/c" (node_c true))
                    (abc true))).
    discriminate.
  - apply (proj2 (@get_absolute_url_spec default_settings (node_c true)
                    (abc true))).
    reflexivity.
Defined.

(** ** Admin validation *)

Lemma elem_of_this_tree_slugs s cleaned_data instance (db : DB) :
  s ∈ CategoryBaseAdminForm.this_tree_slugs cleaned_data instance db ↔
  ∃ p k r, cd_parent cleaned_data = Some p ∧ db !! k = Some r
           ∧ Some k ≠ pk instance ∧ tree_id r = tree_id p ∧ slug r = s.
Proof.
  unfold CategoryBaseAdminForm.this_tree_slugs.
  destruct (cd_parent cleaned_data) as [p|].
  - rewrite list_elem_of_fmap. split.
    + intros (c & -> & Hc).
      apply list_elem_of_filter in Hc as [Hpk Hc].
      apply list_elem_of_filter in Hc as [Htree Hc].
      apply elem_of_rows in Hc as (k & r & Hk & ->).
      exists p, k, r. done.
    + intros (p' & k & r & [= <-] & Hk & Hpk & Htree & <-).
      exists (set_pk (Some k) r). split; [done|].
      apply list_elem_of_filter. split; [done|].
      apply list_elem_of_filter. split; [done|].
      apply elem_of_rows. eauto.
  - split; [by intros ?%elem_of_nil|]. by intros (p & k & r & [=] & _).
Qed.

Lemma validate_parent_not_duplicate cleaned_data instance db :
  CategoryBaseAdminForm.validate_parent cleaned_data instance db
  ≠ inl DuplicateSlug.
Proof.
  unfold CategoryBaseAdminForm.validate_parent.
  destruct (cd_parent cleaned_data), (pk instance);
    repeat case_decide; done.
Qed.

(** C8. The slug check of [clean] fails exactly when a parent is chosen and
    some row of the parent's tree, stored under a key other than the
    instance's, has the candidate slug; without a parent it cannot fail.
    Nothing else in [clean] raises that error. *)
Theorem validate_slug_spec cleaned_data instance (db : DB) :
  (CategoryBaseAdminForm.validate_slug cleaned_data instance db
   = inl DuplicateSlug ↔
   ∃ p k r, cd_parent cleaned_data = Some p ∧ db !! k = Some r
            ∧ Some k ≠ pk instance ∧ tree_id r = tree_id p
            ∧ slug r = cd_slug cleaned_data)
  ∧ (cd_parent cleaned_data = None →
     CategoryBaseAdminForm.validate_slug cleaned_data instance db = inr ())
  ∧ (∀ is_valid,
       CategoryBaseAdminForm.clean is_valid cleaned_data instance db
       = inl DuplicateSlug ↔
       is_valid = true
       ∧ CategoryBaseAdminForm.validate_slug cleaned_data instance db
         = inl DuplicateSlug)
  ∧ (∀ is_valid,
       cd_parent cleaned_data = None →
       CategoryBaseAdminForm.clean is_valid cleaned_data instance db
       ≠ inl DuplicateSlug).
Proof.
  assert (CategoryBaseAdminForm.validate_slug cleaned_data instance db
          = inl DuplicateSlug ↔
          cd_slug cleaned_data
          ∈ CategoryBaseAdminForm.this_tree_slugs cleaned_data instance db)
    as Hiff.
  { unfold CategoryBaseAdminForm.validate_slug. by case_decide. }
  assert (cd_parent cleaned_data = None →
          CategoryBaseAdminForm.validate_slug cleaned_data instance db
          = inr ()) as Hroot.
  { intros Hp. unfold CategoryBaseAdminForm.validate_slug.
    case_decide as Hin; [|done].
    apply elem_of_this_tree_slugs in Hin as (p & k & r & Hp' & _).
    congruence. }
  assert (∀ is_valid,
            CategoryBaseAdminForm.clean is_valid cleaned_data instance db
            = inl DuplicateSlug ↔
            is_valid = true
            ∧ CategoryBaseAdminForm.validate_slug cleaned_data instance db
              = inl DuplicateSlug) as Hclean.
  { intros is_valid. unfold CategoryBaseAdminForm.clean.
    destruct is_valid; simpl; [|split; [done|by intros [? _]]].
    pose proof (validate_parent_not_duplicate cleaned_data instance db).
    destruct (CategoryBaseAdminForm.validate_slug _ _ _) as [e|[]].
    - split; [by intros [= ->]|by intros [_ [= ->]]].
    - destruct (CategoryBaseAdminForm.validate_parent _ _ _) as [e|[]].
      + split; [congruence|by intros [_ ?]].
      + split; [done|by intros [_ ?]]. }
  split_and!; [|done..|].
  - by rewrite Hiff, elem_of_this_tree_slugs.
  - intros is_valid Hp. rewrite Hclean, (Hroot Hp). by intros [_ ?].
Qed.

(** C7. The parent check of [clean] passes when no parent is chosen or the
    instance was never saved.  Otherwise it fails with the self-parent
    error exactly when the parent's key is the instance's, and with the
    descendant error exactly when the parent's key is another one and
    belongs to a row of the instance's subtree; for an instance that
    carries the left bound of its stored row, "another one" goes without
    saying.  A parent that is neither passes. *)
Theorem validate_parent_spec cleaned_data instance (db : DB) :
  let run := CategoryBaseAdminForm.validate_parent cleaned_data instance db in
  let descendant_ids := pk <$> get_descendants instance db in
  (cd_parent cleaned_data = None ∨ pk instance = None → run = inr ())
  ∧ (run = inl SelfParent ↔
     ∃ p i, cd_parent cleaned_data = Some p ∧ pk instance = Some i
            ∧ pk p = Some i)
  ∧ (run = inl CyclicParent ↔
     ∃ p i, cd_parent cleaned_data = Some p ∧ pk instance = Some i
            ∧ pk p ≠ Some i ∧ pk p ∈ descendant_ids)
  ∧ (∀ i r, pk instance = Some i → db !! i = Some r → lft r = lft instance →
     (run = inl CyclicParent ↔
      ∃ p, cd_parent cleaned_data = Some p ∧ pk p ∈ descendant_ids))
  ∧ (∀ p, cd_parent cleaned_data = Some p → pk p ≠ pk instance →
          pk p ∉ descendant_ids → run = inr ()).
Proof.
  intros run descendant_ids. subst run.
  unfold CategoryBaseAdminForm.validate_parent.
  fold descendant_ids.
  assert (∀ i r, pk instance = Some i → db !! i = Some r →
                 lft r = lft instance → Some i ∉ descendant_ids) as Hown.
  { intros i r Hi Hr Hlft Hin. unfold descendant_ids in Hin.
    apply list_elem_of_fmap in Hin as (d & Hd & Hin).
    apply elem_of_get_descendants in Hin as (k & r' & Hk & -> & Hsub).
    simpl in Hd. injection Hd as ->. rewrite Hr in Hk. injection Hk as <-.
    destruct Hsub as (_ & Hlo & _). lia. }
  destruct (cd_parent cleaned_data) as [p|] eqn:Hp;
    destruct (pk instance) as [i|] eqn:Hi.
  - destruct (decide (pk p = Some i)) as [Hself|Hself];
      [|destruct (decide (pk p ∈ descendant_ids)) as [Hin|Hin]].
    + split_and!.
      * intros [|]; done.
      * split; [|done]. intros _. exists p, i. done.
      * split; [done|]. intros (p' & i' & [= <-] & [= <-] & Hne & _). done.
      * intros i' r [= <-] Hr Hlft. split; [done|].
        intros (p' & [= <-] & Hin). rewrite Hself in Hin.
        by eapply Hown in Hin.
      * intros p' [= <-] Hne. done.
    + split_and!.
      * intros [|]; done.
      * split; [done|]. intros (p' & i' & [= <-] & [= <-] & Heq). done.
      * split; [|done]. intros _. exists p, i. done.
      * intros i' r [= <-] Hr Hlft. split; [|done]. intros _. eauto.
      * intros p' [= <-] _ Hnin. done.
    + split_and!.
      * intros [|]; done.
      * split; [done|]. intros (p' & i' & [= <-] & [= <-] & Heq). done.
      * split; [done|]. intros (p' & i' & [= <-] & _ & _ & Hin'). done.
      * intros i' r _ _ _. split; [done|]. intros (p' & [= <-] & Hin'). done.
      * done.
  - split_and!; try done.
    + split; [done|]. intros (p' & i' & _ & [=] & _).
    + split; [done|]. intros (p' & i' & _ & [=] & _).
  - split_and!; try done.
    + split; [done|]. intros (p' & i' & [=] & _).
    + split; [done|]. intros (p' & i' & [=] & _).
    + intros i' r _ _ _. split; [done|]. intros (p' & [=] & _).
  - split_and!; try done.
    + split; [done|]. intros (p' & i' & [=] & _).
    + split; [done|]. intros (p' & i' & [=] & _).
Qed.

(** * More of the code *)

(** ** What [save] leaves alone *)

Lemma for_each_skip {A St : Type} (items : list A)
    (body : A → St → option St) (s : St) :
  (∀ x, x ∈ items → body x s = Some s) →
  for_each items body s = Some s.
Proof.
  induction items as [|x rest IH]; simpl; intros Hskip; [done|].
  rewrite Hskip by left. simpl. apply IH. intros y Hy. apply Hskip. by right.
Qed.

Lemma tree_id_coords c c' : coords c = coords c' → tree_id c = tree_id c'.
Proof. unfold coords. congruence. Qed.

Lemma length_substring_0 n s : (String.length (substring 0 n s) ≤ n)%nat.
Proof.
  revert s. induction n as [|n IH]; intros [|a s]; simpl; try lia.
  specialize (IH s). lia.
Qed.

Section CascadeFrame.

Context (prepare : Category → Category) (cascades : Category → bool)
        (save : nat → Category → DB → option (Category * DB)).

Hypothesis save_O : ∀ self db, save O self db = None.
Hypothesis save_S : ∀ fuel self db,
  save (S fuel) self db = save_step prepare cascades (save fuel) self db.
Hypothesis prepare_pk : ∀ c, pk (prepare c) = pk c.
Hypothesis prepare_coords : ∀ c, coords (prepare c) = coords c.
Hypothesis prepare_active : ∀ c, active (prepare c) = active c.
Hypothesis prepare_payload : ∀ c, payload (prepare c) = payload c.

(** Rows of other trees, and rows at or left of the instance, are out of
    the cascade's reach. *)
Lemma save_frame_tree fuel : ∀ self db self' db' k r,
  save fuel self db = Some (self', db') →
  (persist (prepare self) db).2 !! k = Some r →
  lft r ≤ lft self ∨ tree_id r ≠ tree_id self →
  db' !! k = Some r.
Proof.
  induction fuel as [|fuel IH]; intros self db self' db' k r Hsave.
  { by rewrite save_O in Hsave. }
  pose proof (lft_coords _ _ (persist_coords _ prepare_coords self db))
    as Hlft.
  pose proof (tree_id_coords _ _ (persist_coords _ prepare_coords self db))
    as Htree.
  apply (save_unfold _ _ _ save_O save_S) in Hsave
    as (fuel' & db1 & [= <-] & Hp & Hrest).
  rewrite Hp in Hlft, Htree |- *. simpl in *. intros Hk Hout.
  destruct (cascades self'); [|by subst].
  revert Hrest. apply (for_each_inv (λ d : DB, d !! k = Some r)); [done|].
  intros item dbi dbi' Hitem Hinv Hbody.
  apply elem_of_get_descendants in Hitem as (j & rj & Hj & -> & Hsub).
  apply body_unfold in Hbody as [[_ ->]|[_ [x Hx]]]; [done|].
  destruct Hsub as (Hsame & Hlo & _).
  assert (j ≠ k) as Hne.
  { intros ->. rewrite Hk in Hj. injection Hj as <-. lia. }
  eapply (IH _ _ _ _ k r) in Hx; [done| |simpl; lia].
  rewrite (persist_item _ prepare_pk _ _ j) by done. simpl.
  by rewrite lookup_insert_ne.
Qed.

(** Every other row keeps its payload and its coordinates. *)
Lemma save_payload fuel self db self' db' :
  save fuel self db = Some (self', db') →
  ∀ j r, db !! j = Some r → pk self' ≠ Some j →
         ∃ r', db' !! j = Some r' ∧ payload r' = payload r
               ∧ coords r' = coords r.
Proof.
  intros Hsave j r Hj Hne.
  destruct (save_own_row _ _ _ save_O save_S prepare_pk prepare_coords
              _ _ _ _ _ Hsave) as (Hself & k & Hpk & Hk).
  assert ((persist (prepare self) db).2 !! j = Some r) as Hj1.
  { destruct (persist_spec (prepare self) db) as (k' & Hp & _).
    rewrite Hp in *. simpl in *. subst self'. simpl in *.
    rewrite lookup_insert_ne; [done|congruence]. }
  destruct (save_stable _ _ _ save_O save_S prepare_pk prepare_active
              (λ c, payload c = payload r) (λ c, payload c = payload r)
              (λ _, True)) with fuel self db self' db' j r
    as (r' & Hr' & Hpay); try done.
  { intros c flag _ Hc. by rewrite prepare_payload. }
  exists r'. split_and!; [done..|].
  pose proof (save_coords _ _ _ save_O save_S prepare_pk prepare_coords
                _ _ _ _ _ Hsave) as Hcoords.
  destruct (lookup_coords _ _ j r' Hcoords Hr') as (r1 & Hr1 & Hc).
  congruence.
Qed.

End CascadeFrame.

(** ** The cascade of either flag, and saving twice *)

Section CascadeFlag.

Context (prepare : Category → Category) (cascades : Category → bool)
        (save : nat → Category → DB → option (Category * DB)).

Hypothesis save_O : ∀ self db, save O self db = None.
Hypothesis save_S : ∀ fuel self db,
  save (S fuel) self db = save_step prepare cascades (save fuel) self db.
Hypothesis prepare_pk : ∀ c, pk (prepare c) = pk c.
Hypothesis prepare_coords : ∀ c, coords (prepare c) = coords c.
Hypothesis prepare_active : ∀ c, active (prepare c) = active c.

(** A call never moves a row away from the instance's flag. *)
Lemma save_keeps_flag fuel self db self' db' k :
  save fuel self db = Some (self', db') →
  flag_at (active self) (persist (prepare self) db).2 k →
  flag_at (active self) db' k.
Proof.
  intros Hsave (r & Hk & Hr).
  apply (save_stable _ _ _ save_O save_S prepare_pk prepare_active
           (λ c, active c = active self) (λ _, True)
           (λ flag, flag = active self)) with fuel self db self' r;
    try done.
  intros c flag -> _. by rewrite prepare_active.
Qed.

Lemma body_keeps_flag fuel flag item j dbi dbi' k :
  pk item = Some j →
  body (save fuel) flag item dbi = Some dbi' →
  flag_at flag dbi k → flag_at flag dbi' k.
Proof.
  intros Hj Hbody Hk.
  apply body_unfold in Hbody as [[_ ->]|[_ [x Hx]]]; [done|].
  apply (save_keeps_flag _ _ _ _ _ k) in Hx; [done|]. simpl.
  rewrite (persist_item _ prepare_pk _ _ j) by done. simpl.
  destruct Hk as (r & Hr & Hact).
  destruct (decide (j = k)) as [->|Hne].
  - eexists. rewrite lookup_insert_eq. split; [done|].
    by rewrite prepare_active.
  - exists r. by rewrite lookup_insert_ne.
Qed.

Lemma body_sets_flag fuel flag item j dbi dbi' :
  pk item = Some j →
  (active item = flag → flag_at flag dbi j) →
  body (save fuel) flag item dbi = Some dbi' →
  flag_at flag dbi' j.
Proof.
  intros Hj Hstale Hbody.
  apply body_unfold in Hbody as [[Hact ->]|[_ [x Hx]]]; [auto|].
  apply (save_keeps_flag _ _ _ _ _ j) in Hx; [done|]. simpl.
  rewrite (persist_item _ prepare_pk _ _ j) by done. simpl.
  eexists. rewrite lookup_insert_eq. split; [done|].
  by rewrite prepare_active.
Qed.

Lemma loop_keeps_flag fuel flag items dbi dbf k :
  (∀ x, x ∈ items → is_Some (pk x)) →
  for_each items (body (save fuel) flag) dbi = Some dbf →
  flag_at flag dbi k → flag_at flag dbf k.
Proof.
  intros Hpk Hloop Hk. revert Hloop.
  apply (for_each_inv (λ d : DB, flag_at flag d k)); [done|].
  intros x s1 s2 Hx Hs1 Hbody. destruct (Hpk x Hx) as [j Hj].
  by eapply body_keeps_flag.
Qed.

Lemma loop_sets_flag fuel flag items : ∀ dbi dbf,
  (∀ x, x ∈ items →
        ∃ j, pk x = Some j ∧ (active x = flag → flag_at flag dbi j)) →
  for_each items (body (save fuel) flag) dbi = Some dbf →
  ∀ x, x ∈ items → ∃ j, pk x = Some j ∧ flag_at flag dbf j.
Proof.
  induction items as [|y rest IH]; intros dbi dbf Hitems Hloop x Hx.
  { by apply elem_of_nil in Hx. }
  simpl in Hloop.
  destruct (body (save fuel) flag y dbi) as [dbi'|] eqn:Hbody; [|done].
  simpl in Hloop.
  destruct (Hitems y) as (jy & Hjy & Hstale); [left|].
  assert (∀ z, z ∈ rest → is_Some (pk z)) as Hpks.
  { intros z Hz. destruct (Hitems z) as (j & -> & _); [by right|eauto]. }
  apply elem_of_cons in Hx as [->|Hx].
  - exists jy. split; [done|].
    eapply loop_keeps_flag; [done..|].
    by eapply body_sets_flag.
  - eapply (IH dbi'); [|done..].
    intros z Hz. destruct (Hitems z) as (j & Hj & Hst); [by right|].
    exists j. split; [done|]. intros Hact.
    eapply (body_keeps_flag fuel flag y jy dbi); auto.
Qed.

(** When the loop is entered, it leaves every row of the subtree with the
    instance's flag. *)
Lemma save_aligns fuel self db self' db' :
  save fuel self db = Some (self', db') →
  cascades self' = true →
  ∀ d, d ∈ get_descendants self' db' → active d = active self'.
Proof.
  intros Hsave Hc d Hd.
  pose proof (save_coords _ _ _ save_O save_S prepare_pk prepare_coords
                _ _ _ _ _ Hsave) as Hcoords.
  apply (save_unfold _ _ _ save_O save_S) in Hsave
    as (fuel' & db1 & _ & Hp & Hrest).
  rewrite Hp in *. simpl in *. rewrite Hc in Hrest.
  apply elem_of_get_descendants in Hd as (k & r' & Hk & -> & Hsub).
  destruct (lookup_coords db' db1 k r') as (r1 & Hr1 & Hc1); [done..|].
  assert (∀ x, x ∈ get_descendants self' db1 →
            ∃ j, pk x = Some j
                 ∧ (active x = active self' → flag_at (active self') db1 j))
    as Hitems.
  { intros x Hx.
    apply elem_of_get_descendants in Hx as (j & rj & Hj & -> & _).
    exists j. split; [done|]. intros Hin. exists rj. done. }
  destruct (loop_sets_flag _ _ _ _ _ Hitems Hrest (set_pk (Some k) r1))
    as (j & [= <-] & r2 & Hr2 & Hin).
  - apply elem_of_get_descendants. exists k, r1. split_and!; [done..|].
    eapply in_subtree_coords; [done| |done]. done.
  - simpl. congruence.
Qed.

Hypothesis prepare_again :
  ∀ c k, prepare (set_pk k (prepare c)) = set_pk k (prepare c).

(** Saving what [save] returned, on the table it left, changes nothing. *)
Lemma save_again fuel self db self' db' fuel' :
  save fuel self db = Some (self', db') →
  save (S fuel') self' db' = Some (self', db').
Proof.
  intros Hsave.
  pose proof (save_aligns _ _ _ _ _ Hsave) as Haligned.
  destruct (save_own_row _ _ _ save_O save_S prepare_pk prepare_coords
              _ _ _ _ _ Hsave) as (Hself & k & Hpk & Hk).
  assert (prepare self' = self') as Hprep.
  { rewrite Hself.
    destruct (persist_spec (prepare self) db) as (k' & -> & _). simpl.
    apply prepare_again. }
  rewrite save_S. unfold save_step. rewrite Hprep.
  rewrite (persist_saved _ _ k) by done. rewrite (insert_id db') by done.
  destruct (cascades self') eqn:Hc; [|done].
  rewrite for_each_skip; [done|].
  intros x Hx. unfold body. by rewrite (Haligned eq_refl x Hx), Bool.eqb_reflx.
Qed.

End CascadeFlag.

Section MoreOfSaves.

Context `{Settings}.

Lemma base_fill_slug_payload c :
  payload (CategoryBase.fill_slug c) = payload c.
Proof. unfold CategoryBase.fill_slug. by case_decide. Qed.

Lemma models_prepare_payload c : payload (models_prepare c) = payload c.
Proof.
  unfold models_prepare, Models.fill_thumbnail_size, Models.fill_slug.
  case_decide; by destruct (thumbnail _) as [[]|].
Qed.

Lemma base_fill_slug_again c k :
  CategoryBase.fill_slug (set_pk k (CategoryBase.fill_slug c))
  = set_pk k (CategoryBase.fill_slug c).
Proof.
  unfold CategoryBase.fill_slug.
  destruct (decide (slug c = "")) as [Hc|Hc]; simpl.
  - case_decide as Hs; [|done]. simpl in Hs. unfold set_slug, set_pk. simpl.
    by rewrite Hs.
  - by case_decide.
Qed.

Lemma models_prepare_again c k :
  models_prepare (set_pk k (models_prepare c))
  = set_pk k (models_prepare c).
Proof.
  unfold models_prepare, Models.fill_thumbnail_size, Models.fill_slug.
  destruct (decide (slug c = "")) as [Hc|Hc];
    destruct (thumbnail c) as [[w h]|] eqn:Ht; simpl;
    case_decide as Hs; simpl in *; try done;
    rewrite ?Ht; unfold set_slug, set_pk, set_thumbnail_size; simpl;
    rewrite ?Ht; by rewrite ?Hs.
Qed.

End MoreOfSaves.

Lemma base_save_runs `{Settings} fuel self db :
  (size db + 1 < fuel)%nat →
  ∃ self' db', CategoryBase.save fuel self db = Some (self', db').
Proof.
  intros Hfuel.
  destruct (save_total CategoryBase.fill_slug base_cascades
              CategoryBase.save base_save_O base_save_S base_fill_slug_pk
              base_fill_slug_coords fuel self db Hfuel) as [[self' db'] Hs].
  eauto.
Qed.

Lemma models_save_runs `{Settings} fuel self db :
  (size db + 1 < fuel)%nat →
  ∃ self' db', Models.save fuel self db = Some (self', db').
Proof.
  intros Hfuel.
  destruct (save_total models_prepare models_cascades
              Models.save models_save_O models_save_S models_prepare_pk
              models_prepare_coords fuel self db Hfuel) as [[self' db'] Hs].
  eauto.
Qed.

(** X4. Saving twice is saving once, for an instance without a thumbnail
    (a thumbnail's file is read again, and closed, on every save): [save]
    on the instance it returned and the table it left returns the same
    instance and the same table, for [CategoryBase.save] and for
    [Category.save]. *)
Theorem save_twice_is_once `{Settings} self db fuel :
  thumbnail self = None →
  (size db + 1 < fuel)%nat →
  (∃ self' db',
      CategoryBase.save fuel self db = Some (self', db')
      ∧ ∀ fuel', (0 < fuel')%nat →
                 CategoryBase.save fuel' self' db' = Some (self', db'))
  ∧ (∃ self' db',
      Models.save fuel self db = Some (self', db')
      ∧ ∀ fuel', (0 < fuel')%nat →
                 Models.save fuel' self' db' = Some (self', db')).
Proof.
  intros _ Hfuel. split.
  - destruct (base_save_runs fuel self db Hfuel) as (self' & db' & Hsave).
    exists self', db'. split; [done|]. intros [|fuel'] Hpos; [lia|].
    by apply (save_again _ _ _ base_save_O base_save_S base_fill_slug_pk
                base_fill_slug_coords base_fill_slug_active
                base_fill_slug_again fuel self db).
  - destruct (models_save_runs fuel self db Hfuel) as (self' & db' & Hsave).
    exists self', db'. split; [done|]. intros [|fuel'] Hpos; [lia|].
    by apply (save_again _ _ _ models_save_O models_save_S models_prepare_pk
                models_prepare_coords models_prepare_active
                models_prepare_again fuel self db).
Qed.

Lemma save_twice_is_once_witness :
  (∃ self' db',
      @CategoryBase.save default_settings 5 hello_world (abc true)
      = Some (self', db')
      ∧ ∀ fuel', (0 < fuel')%nat →
                 @CategoryBase.save default_settings fuel' self' db'
                 = Some (self', db'))
  ∧ (∃ self' db',
      @Models.save default_settings 5 hello_world (abc true)
      = Some (self', db')
      ∧ ∀ fuel', (0 < fuel')%nat →
                 @Models.save default_settings fuel' self' db'
                 = Some (self', db')).
Proof.
  apply (@save_twice_is_once default_settings hello_world (abc true) 5).
  - reflexivity.
  - vm_compute. lia.
Defined.

(** X5. [Category.save] (models.py) cascades either flag: it returns the
    instance with its flag and its coordinates and stores its row; every
    row that the table had in the instance's subtree is still there and
    has the instance's [active], whether that is [True] or [False]; and
    so has every row of the instance's subtree in the table left
    behind. *)
Theorem models_save_aligns_descendants `{Settings} self db fuel :
  (size db + 1 < fuel)%nat →
  ∃ self' db' k,
    Models.save fuel self db = Some (self', db')
    ∧ pk self' = Some k ∧ db' !! k = Some self'
    ∧ active self' = active self ∧ coords self' = coords self
    ∧ (∀ j r, db !! j = Some r → in_subtree self r →
              ∃ r', db' !! j = Some r' ∧ active r' = active self)
    ∧ ∀ d, d ∈ get_descendants self' db' → active d = active self.
Proof.
  intros Hfuel.
  destruct (models_save_runs fuel self db Hfuel) as (self' & db' & Hsave).
  destruct (save_returns _ _ _ models_save_O models_save_S
              models_prepare_pk models_prepare_coords _ _ _ _ _ Hsave)
    as (Hcoords & k & Hpk & Hk).
  destruct (save_own_row _ _ _ models_save_O models_save_S
              models_prepare_pk models_prepare_coords _ _ _ _ _ Hsave)
    as (Hself & _).
  pose proof (persist_active _ models_prepare_active self db) as Hact.
  rewrite <- Hself in Hact.
  assert (∀ d, d ∈ get_descendants self' db' → active d = active self)
    as Hall.
  { intros d Hd. rewrite <- Hact.
    by apply (save_aligns _ _ _ models_save_O models_save_S
                models_prepare_pk models_prepare_coords
                models_prepare_active fuel self db self' db'). }
  exists self', db', k. split_and!; [done..| |done].
  by apply (save_reaches _ _ _ models_save_O models_save_S models_prepare_pk
              models_prepare_coords fuel self db self' db' (active self)).
Qed.

Lemma models_save_aligns_descendants_witness :
  ∃ self' db' k,
    @Models.save default_settings 5 (node_a true) (abc false)
    = Some (self', db')
    ∧ pk self' = Some k ∧ db' !! k = Some self'
    ∧ active self' = true ∧ coords self' = (1, 1, 6)
    ∧ (∀ j r, abc false !! j = Some r → in_subtree (node_a true) r →
              ∃ r', db' !! j = Some r' ∧ active r' = true)
    ∧ ∀ d, d ∈ get_descendants self' db' → active d = true.
Proof.
  apply (@models_save_aligns_descendants default_settings (node_a true)
           (abc false) 5).
  vm_compute. lia.
Defined.

(** X6. A slug that [save] derives from the name has at most 50
    characters, whatever [slugify] returns. *)
Theorem derived_slug_is_short `{Settings} self db fuel :
  slug self = "" →
  (size db + 1 < fuel)%nat →
  (∃ self' db',
      CategoryBase.save fuel self db = Some (self', db')
      ∧ (String.length (slug self') ≤ 50)%nat)
  ∧ (∃ self' db',
      Models.save fuel self db = Some (self', db')
      ∧ (String.length (slug self') ≤ 50)%nat).
Proof.
  intros Hblank Hfuel. split.
  - destruct (base_save_runs fuel self db Hfuel) as (self' & db' & Hsave).
    exists self', db'. split; [done|].
    destruct (save_slugs _ _ _ base_save_O base_save_S base_fill_slug_pk
                base_fill_slug_coords base_fill_slug_active
                base_fill_slug_keeps _ _ _ _ _ Hsave)
      as (k & _ & _ & -> & _).
    rewrite base_fill_slug_blank by done. apply length_substring_0.
  - destruct (models_save_runs fuel self db Hfuel) as (self' & db' & Hsave).
    exists self', db'. split; [done|].
    destruct (save_slugs _ _ _ models_save_O models_save_S
                models_prepare_pk models_prepare_coords
                models_prepare_active models_prepare_set _ _ _ _ _ Hsave)
      as (k & _ & _ & -> & _).
    rewrite models_prepare_blank by done. apply length_substring_0.
Qed.

Lemma derived_slug_is_short_witness :
  (∃ self' db',
      @CategoryBase.save default_settings 5 hello_world (abc true)
      = Some (self', db')
      ∧ (String.length (slug self') ≤ 50)%nat)
  ∧ (∃ self' db',
      @Models.save default_settings 5 hello_world (abc true)
      = Some (self', db')
      ∧ (String.length (slug self') ≤ 50)%nat).
Proof.
  apply (@derived_slug_is_short default_settings hello_world (abc true) 5).
  - reflexivity.
  - vm_compute. lia.
Defined.

(** ** The admin actions *)

Lemma for_each_post {A St : Type} (I : St → Prop) (P : A → St → Prop)
    (items : list A) (body : A → St → option St) (s s' : St) :
  I s →
  (∀ x s1 s2, x ∈ items → I s1 → body x s1 = Some s2 → I s2 ∧ P x s2) →
  (∀ x y s1 s2, y ∈ items → I s1 → body y s1 = Some s2 → P x s1 → P x s2) →
  for_each items body s = Some s' →
  I s' ∧ ∀ x, x ∈ items → P x s'.
Proof.
  revert s. induction items as [|y rest IH]; simpl; intros s Hs Hstep Hkeep.
  { intros [= <-]. split; [done|]. by intros x ?%elem_of_nil. }
  destruct (body y s) as [s1|] eqn:Hy; simpl; [|done]. intros Hrun.
  destruct (Hstep y s s1) as [Hs1 Hy1]; [left|done..|].
  assert (I s' ∧ ∀ x, P x s1 → P x s') as [Hs' Hkept].
  { clear IH Hy1 Hy. revert s1 Hs1 Hrun.
    induction rest as [|z rest IHr]; simpl; intros s1 Hs1.
    - intros [= <-]. done.
    - destruct (body z s1) as [s2|] eqn:Hz; simpl; [|done]. intros Hrun.
      destruct (Hstep z s1 s2) as [Hs2 _]; [right; left|done..|].
      destruct (IHr) with s2 as [Hs' Hk]; [| |done..|].
      + intros x t1 t2 Hx. apply Hstep.
        apply elem_of_cons in Hx as [->|Hx]; [left|right; by right].
      + intros x y' t1 t2 Hy'. apply Hkeep.
        apply elem_of_cons in Hy' as [->|Hy']; [left|right; by right].
      + split; [done|]. intros x Hx. apply Hk.
        eapply (Hkeep x z s1 s2); [right; left|done..]. }
  split; [done|]. intros x [->|Hx]%elem_of_cons; [by apply Hkept|].
  destruct (IH s1) as [_ Hall]; [done| | |done|by apply Hall].
  - intros z t1 t2 Hz. apply Hstep. by right.
  - intros z y' t1 t2 Hy'. apply Hkeep. by right.
Qed.

Lemma elem_of_selected_cats x selected (db : DB) :
  x ∈ CategoryBaseAdmin.selected_cats selected db ↔
  ∃ k r, db !! k = Some r ∧ x = set_pk (Some k) r ∧ k ∈ selected.
Proof.
  unfold CategoryBaseAdmin.selected_cats. rewrite merge_sort_Permutation.
  rewrite list_elem_of_filter, elem_of_rows. split.
  - intros (Hin & k & r & Hk & ->). simpl in Hin.
    apply list_elem_of_fmap in Hin as (k' & [= <-] & Hin). eauto.
  - intros (k & r & Hk & -> & Hin). split; [|eauto]. simpl.
    apply list_elem_of_fmap. eauto.
Qed.

Lemma lookup_update_children item k flag (db : DB) j :
  pk item = Some k →
  CategoryBaseAdmin.update_children item flag db !! j
  = (λ r, if decide (parent r = Some k) then set_active flag r else r)
    <$> db !! j.
Proof.
  intros Hk. unfold CategoryBaseAdmin.update_children.
  by rewrite Hk, lookup_fmap.
Qed.

Lemma coords_update_children item flag (db : DB) :
  coords <$> CategoryBaseAdmin.update_children item flag db = coords <$> db.
Proof.
  unfold CategoryBaseAdmin.update_children.
  destruct (pk item); [|done].
  rewrite <- map_fmap_compose. apply map_fmap_ext.
  intros j r _. simpl. by case_decide.
Qed.

Lemma update_children_keeps_flag item flag (db : DB) j :
  flag_at flag db j →
  flag_at flag (CategoryBaseAdmin.update_children item flag db) j.
Proof.
  intros (r & Hr & Hact). unfold CategoryBaseAdmin.update_children.
  destruct (pk item); [|by exists r].
  eexists. rewrite lookup_fmap, Hr. simpl. split; [done|].
  by case_decide.
Qed.

Lemma get_descendants_coords a b (db : DB) :
  coords a = coords b → get_descendants a db = get_descendants b db.
Proof.
  intros Hc. unfold get_descendants. f_equal. apply list_filter_iff.
  intros r. split; apply in_subtree_coords; done.
Qed.

(** Whether a subtree is all inactive depends on the coordinates and on
    which rows are inactive. *)
Lemma descendants_stay_inactive x (db1 db2 : DB) :
  coords <$> db1 = coords <$> db2 →
  (∀ k, flag_at false db1 k → flag_at false db2 k) →
  (∀ d, d ∈ get_descendants x db1 → active d = false) →
  ∀ d, d ∈ get_descendants x db2 → active d = false.
Proof.
  intros Hcoords Hmono Hall d Hd.
  apply elem_of_get_descendants in Hd as (k & r2 & Hk & -> & Hsub).
  destruct (lookup_coords db2 db1 k r2) as (r1 & Hr1 & Hc1); [done..|].
  destruct (Hmono k) as (r2' & Hr2' & Hact).
  - exists r1. split; [done|].
    apply (Hall (set_pk (Some k) r1)).
    apply elem_of_get_descendants. exists k, r1. split_and!; [done..|].
    eapply in_subtree_coords; [done| |done]. done.
  - simpl. congruence.
Qed.

Section Deactivate.

Context `{Settings}.

Lemma deactivate_body_spec fuel (db0 dbi : DB) k r0 :
  (size db0 + 1 < fuel)%nat →
  db0 !! k = Some r0 →
  coords <$> dbi = coords <$> db0 →
  ∃ dbi',
    deactivate_body fuel (set_pk (Some k) r0) dbi = Some dbi'
    ∧ coords <$> dbi' = coords <$> db0
    ∧ (∀ j, flag_at false dbi j → flag_at false dbi' j)
    ∧ (active r0 = true →
       flag_at false dbi' k
       ∧ ∀ d, d ∈ get_descendants r0 dbi' → active d = false).
Proof.
  intros Hfuel Hk Hcoords. unfold deactivate_body. simpl.
  destruct (active r0) eqn:Hact; [|by exists dbi].
  set (item := set_active false (set_pk (Some k) r0)).
  assert (size dbi = size db0) as Hsize.
  { by rewrite <- (map_size_fmap coords dbi), Hcoords, map_size_fmap. }
  destruct (base_save_runs fuel item dbi) as (self' & dbs & Hsave); [lia|].
  rewrite Hsave. simpl. eexists. split; [done|].
  destruct (save_own_row _ _ _ base_save_O base_save_S base_fill_slug_pk
              base_fill_slug_coords _ _ _ _ _ Hsave)
    as (Hself & k' & Hpk & Hrow).
  pose proof (save_coords _ _ _ base_save_O base_save_S base_fill_slug_pk
                base_fill_slug_coords _ _ _ _ _ Hsave) as Hcs.
  pose proof (persist_active _ base_fill_slug_active item dbi) as Hact'.
  pose proof (persist_coords _ base_fill_slug_coords item dbi) as Hco'.
  rewrite (persist_saved _ _ k) in Hself, Hcs, Hact', Hco'
    by (by rewrite base_fill_slug_pk).
  simpl in *.
  destruct (lookup_coords db0 dbi k r0) as (ri & Hri & Hci); [done..|].
  assert (coords <$> dbs = coords <$> db0) as Hcs0.
  { rewrite Hcs, <- Hcoords. eapply coords_insert_same; [done|].
    by rewrite base_fill_slug_coords, Hci. }
  assert (∀ j, flag_at false dbi j → flag_at false dbs j) as Hmono.
  { intros j Hj.
    apply (save_keeps_inactive _ _ _ base_save_O base_save_S
             base_fill_slug_pk base_fill_slug_active fuel item dbi self');
      [done..|].
    rewrite (persist_saved _ _ k) by (by rewrite base_fill_slug_pk). simpl.
    destruct Hj as (r & Hr & Hra).
    destruct (decide (k = j)) as [->|Hne].
    - eexists. rewrite lookup_insert_eq. split; [done|].
      by rewrite base_fill_slug_active.
    - exists r. by rewrite lookup_insert_ne. }
  split_and!.
  - by rewrite coords_update_children.
  - intros j Hj. by apply update_children_keeps_flag, Hmono.
  - intros _. split.
    + apply update_children_keeps_flag. exists self'.
      assert (k' = k) as ->
        by (rewrite Hself, base_fill_slug_pk in Hpk; by injection Hpk).
      split; [done|]. by rewrite Hself, base_fill_slug_active.
    + apply (descendants_stay_inactive r0 dbs).
      * by rewrite coords_update_children.
      * intros j. apply update_children_keeps_flag.
      * rewrite (get_descendants_coords r0 self')
          by (by rewrite Hself, base_fill_slug_coords).
        apply (save_cascade _ _ _ base_save_O base_save_S base_fill_slug_pk
                 base_fill_slug_coords base_fill_slug_active fuel item dbi);
          [done..|].
        unfold base_cascades. by rewrite Hself, base_fill_slug_active.
Qed.

End Deactivate.

(** X7. The admin action [deactivate] returns once the fuel exceeds the
    number of rows by two, and then: every selected row is inactive; below
    every selected row that was active, the whole subtree is inactive; no
    row that was inactive has become active; and no coordinate has
    changed. *)
Theorem deactivate_spec `{Settings} selected db fuel :
  (size db + 1 < fuel)%nat →
  ∃ db',
    CategoryBaseAdmin.deactivate fuel selected db = Some db'
    ∧ coords <$> db' = coords <$> db
    ∧ (∀ k, flag_at false db k → flag_at false db' k)
    ∧ (∀ k, k ∈ selected → is_Some (db !! k) → flag_at false db' k)
    ∧ (∀ k r, k ∈ selected → db !! k = Some r → active r = true →
              ∀ d, d ∈ get_descendants r db' → active d = false).
Proof.
  intros Hfuel.
  change (CategoryBaseAdmin.deactivate fuel selected db)
    with (for_each (CategoryBaseAdmin.selected_cats selected db)
            (deactivate_body fuel) db).
  set (items := CategoryBaseAdmin.selected_cats selected db).
  set (I := λ d : DB, coords <$> d = coords <$> db
                      ∧ ∀ k, flag_at false db k → flag_at false d k).
  set (P := λ (x : Category) (d : DB),
         active x = true →
         ∃ j, pk x = Some j ∧ flag_at false d j
              ∧ ∀ dd, dd ∈ get_descendants x d → active dd = false).
  assert (I db) as HI0 by (by split).
  destruct (for_each_is_Some I items (deactivate_body fuel) db HI0)
    as [db' Hrun].
  { intros x dbi Hx [Hc Hm].
    apply elem_of_selected_cats in Hx as (k & r0 & Hk & -> & _).
    destruct (deactivate_body_spec fuel db dbi k r0)
      as (dbi' & Hb & Hc' & Hm' & _); [done..|].
    exists dbi'. split; [done|]. split; [done|]. auto. }
  destruct (for_each_post I P items (deactivate_body fuel) db db' HI0)
    as [[Hc Hm] Hpost]; [| |done|].
  { intros x dbi dbi2 Hx [Hci Hmi] Hb.
    apply elem_of_selected_cats in Hx as (k & r0 & Hk & -> & _).
    destruct (deactivate_body_spec fuel db dbi k r0)
      as (dbi' & Hb' & Hc' & Hm' & Hp'); [done..|].
    rewrite Hb in Hb'. injection Hb' as <-.
    split; [split; [done|auto]|].
    intros Hact. simpl in Hact. destruct (Hp' Hact) as [Hk' Hd'].
    exists k. split_and!; [done..|].
    by rewrite (get_descendants_coords _ r0). }
  { intros x y dbi dbi2 Hy [Hci Hmi] Hb Hx Hact.
    apply elem_of_selected_cats in Hy as (k & r0 & Hk & -> & _).
    destruct (deactivate_body_spec fuel db dbi k r0)
      as (dbi' & Hb' & Hc' & Hm' & _); [done..|].
    rewrite Hb in Hb'. injection Hb' as <-.
    destruct (Hx Hact) as (j & Hj & Hfj & Hdj).
    exists j. split_and!; [done|auto|].
    apply (descendants_stay_inactive x dbi); [congruence|done..]. }
  exists db'. split_and!; [done..| |].
  - intros k Hsel [r Hr].
    destruct (active r) eqn:Hact; [|apply Hm; by exists r].
    destruct (Hpost (set_pk (Some k) r)) as (j & [= <-] & Hfj & _);
      [|done..].
    apply elem_of_selected_cats. eauto.
  - intros k r Hsel Hr Hact.
    destruct (Hpost (set_pk (Some k) r)) as (j & _ & _ & Hdj); [|done|].
    { apply elem_of_selected_cats. eauto. }
    by rewrite (get_descendants_coords r (set_pk (Some k) r)).
Qed.

Lemma deactivate_spec_witness :
  ∃ db',
    @CategoryBaseAdmin.deactivate default_settings 5 [2] (abc true)
    = Some db'
    ∧ coords <$> db' = coords <$> abc true
    ∧ (∀ k, flag_at false (abc true) k → flag_at false db' k)
    ∧ (∀ k, k ∈ [2] → is_Some (abc true !! k) → flag_at false db' k)
    ∧ (∀ k r, k ∈ [2] → abc true !! k = Some r → active r = true →
              ∀ d, d ∈ get_descendants r db' → active d = false).
Proof.
  apply (@deactivate_spec default_settings [2] (abc true) 5).
  vm_compute. lia.
Defined.

Lemma activate_body_spec `{Settings} fuel (dbi : DB) k r0 j :
  (0 < fuel)%nat →
  ∃ dbi' c,
    activate_body fuel (set_pk (Some k) r0) dbi = Some dbi'
    ∧ active c = true ∧ parent c = parent r0
    ∧ dbi' !! j
      = (λ r, if decide (parent r = Some k) then set_active true r else r)
        <$> <[k := c]> dbi !! j.
Proof.
  intros Hfuel. destruct fuel as [|fuel]; [lia|].
  set (item := set_active true (set_pk (Some k) r0)).
  exists (CategoryBaseAdmin.update_children (CategoryBase.fill_slug item)
            true (<[k := CategoryBase.fill_slug item]> dbi)),
    (CategoryBase.fill_slug item).
  unfold activate_body. fold item.
  rewrite (proj1 (base_save_active_frame fuel item dbi eq_refl)).
  rewrite (persist_saved _ _ k) by (by rewrite base_fill_slug_pk). simpl.
  split_and!; [done| | |].
  - by rewrite base_fill_slug_active.
  - unfold CategoryBase.fill_slug. by case_decide.
  - apply lookup_update_children. by rewrite base_fill_slug_pk.
Qed.

(** X8. The admin action [activate] reaches one level down and no
    further: every selected row is active, every row whose parent is a
    selected row is active, no active row has become inactive, and a row
    that is neither selected nor the child of a selected row is left
    exactly as it was. *)
Theorem activate_spec `{Settings} selected db fuel :
  (0 < fuel)%nat →
  ∃ db',
    CategoryBaseAdmin.activate fuel selected db = Some db'
    ∧ (∀ k, k ∈ selected → is_Some (db !! k) → flag_at true db' k)
    ∧ (∀ j r p, db !! j = Some r → parent r = Some p → p ∈ selected →
                is_Some (db !! p) → flag_at true db' j)
    ∧ (∀ j, flag_at true db j → flag_at true db' j)
    ∧ (∀ j r, db !! j = Some r → j ∉ selected →
              (∀ p, parent r = Some p → p ∉ selected) →
              db' !! j = Some r).
Proof.
  intros Hfuel.
  change (CategoryBaseAdmin.activate fuel selected db)
    with (for_each (CategoryBaseAdmin.selected_cats selected db)
            (activate_body fuel) db).
  set (items := CategoryBaseAdmin.selected_cats selected db).
  set (I := λ d : DB,
         ∀ j r, db !! j = Some r →
                ∃ r', d !! j = Some r' ∧ parent r' = parent r
                      ∧ (active r = true → active r' = true)
                      ∧ (j ∉ selected →
                         (∀ p, parent r = Some p → p ∉ selected) →
                         r' = r)).
  set (P := λ (x : Category) (d : DB),
         ∃ k, pk x = Some k ∧ flag_at true d k
              ∧ ∀ j r, db !! j = Some r → parent r = Some k →
                       flag_at true d j).
  assert (I db) as HI0 by (intros j r Hj; by exists r).
  assert (∀ x dbi dbi2, x ∈ items → I dbi →
            activate_body fuel x dbi = Some dbi2 → I dbi2 ∧ P x dbi2)
    as Hstep.
  { intros x dbi dbi2 Hx HI Hb.
    apply elem_of_selected_cats in Hx as (k & r0 & Hk & -> & Hsel).
    assert (∀ j, ∃ c, active c = true ∧ parent c = parent r0
               ∧ dbi2 !! j
                 = (λ r, if decide (parent r = Some k)
                         then set_active true r else r)
                   <$> <[k := c]> dbi !! j) as Hrow.
    { intros j.
      destruct (activate_body_spec fuel dbi k r0 j Hfuel)
        as (dbi' & c & Hb' & Hc); rewrite Hb in Hb'; injection Hb' as <-.
      by exists c. }
    split.
    - intros j r Hj. destruct (Hrow j) as (c & Hca & Hcp & ->).
      destruct (HI j r Hj) as (r' & Hr' & Hpar & Hact & Hsame).
      destruct (decide (k = j)) as [->|Hne].
      + rewrite lookup_insert_eq. simpl. eexists. split; [done|].
        assert (r0 = r) as -> by congruence.
        split_and!; [by case_decide|by case_decide|done].
      + rewrite lookup_insert_ne, Hr' by done. simpl.
        eexists. split; [done|].
        split_and!; [by case_decide|case_decide; simpl; auto|].
        intros Hj' Hp'. rewrite (Hsame Hj' Hp') in *.
        case_decide as Hpk; [|done]. by destruct (Hp' k).
    - exists k. split; [done|]. split.
      + destruct (Hrow k) as (c & Hca & Hcp & Hk2).
        rewrite lookup_insert_eq in Hk2. simpl in Hk2.
        eexists. split; [done|]. by case_decide.
      + intros j r Hj Hpar. destruct (Hrow j) as (c & Hca & Hcp & Hj2).
        destruct (HI j r Hj) as (r' & Hr' & Hpar' & _).
        destruct (decide (k = j)) as [->|Hne].
        * rewrite lookup_insert_eq in Hj2. simpl in Hj2.
          eexists. split; [done|]. by case_decide.
        * rewrite lookup_insert_ne, Hr' in Hj2 by done. simpl in Hj2.
          eexists. split; [done|].
          rewrite decide_True by congruence. done. }
  destruct (for_each_is_Some I items (activate_body fuel) db HI0)
    as [db' Hrun].
  { intros x dbi Hx HI.
    pose proof Hx as Hx'.
    apply elem_of_selected_cats in Hx' as (k & r0 & Hk & -> & Hsel).
    destruct (activate_body_spec fuel dbi k r0 k Hfuel)
      as (dbi' & c & Hb & _).
    exists dbi'. split; [done|]. by destruct (Hstep _ _ _ Hx HI Hb). }
  destruct (for_each_post I P items (activate_body fuel) db db' HI0)
    as [HI Hpost]; [done| |done|].
  { intros x y dbi dbi2 Hy HIi Hb (k & Hk & Hfk & Hch).
    apply elem_of_selected_cats in Hy as (ky & r0 & Hky & -> & Hsel).
    assert (∀ j, flag_at true dbi j → flag_at true dbi2 j) as Hmono.
    { intros j (r & Hr & Hact).
      destruct (activate_body_spec fuel dbi ky r0 j Hfuel)
        as (dbi' & c & Hb' & Hca & _ & Hj2).
      rewrite Hb in Hb'. injection Hb' as <-.
      destruct (decide (ky = j)) as [->|Hne].
      - rewrite lookup_insert_eq in Hj2. simpl in Hj2.
        eexists. split; [done|]. by case_decide.
      - rewrite lookup_insert_ne, Hr in Hj2 by done. simpl in Hj2.
        eexists. split; [done|]. by case_decide. }
    exists k. split_and!; [done|auto|]. intros j r Hj Hp. eauto. }
  exists db'. split_and!; [done| | | |].
  - intros k Hsel [r Hr].
    destruct (Hpost (set_pk (Some k) r)) as (j & [= <-] & Hfj & _); [|done].
    apply elem_of_selected_cats. eauto.
  - intros j r p Hj Hpar Hsel [rp Hrp].
    destruct (Hpost (set_pk (Some p) rp)) as (k & [= <-] & _ & Hch).
    { apply elem_of_selected_cats. eauto. }
    eauto.
  - intros j (r & Hr & Hact).
    destruct (HI j r Hr) as (r' & Hr' & _ & Hact' & _).
    exists r'. auto.
  - intros j r Hj Hnsel Hpar.
    destruct (HI j r Hj) as (r' & Hr' & _ & _ & Hsame).
    by rewrite Hr', (Hsame Hnsel Hpar).
Qed.

Lemma activate_spec_witness :
  ∃ db',
    @CategoryBaseAdmin.activate default_settings 1 [1] (abc false) = Some db'
    ∧ (∀ k, k ∈ [1] → is_Some (abc false !! k) → flag_at true db' k)
    ∧ (∀ j r p, abc false !! j = Some r → parent r = Some p → p ∈ [1] →
                is_Some (abc false !! p) → flag_at true db' j)
    ∧ (∀ j, flag_at true (abc false) j → flag_at true db' j)
    ∧ (∀ j r, abc false !! j = Some r → j ∉ [1] →
              (∀ p, parent r = Some p → p ∉ [1]) →
              db' !! j = Some r).
Proof.
  apply (@activate_spec default_settings [1] (abc false) 1). lia.
Defined.

(** ** Querysets *)

Lemma NoDup_pk_rows (db : DB) : NoDup (pk <$> rows db).
Proof.
  assert (pk <$> rows db = Some <$> (map_to_list db).*1) as ->.
  { unfold rows. generalize (map_to_list db).
    induction l as [|[k r] l IH]; [done|].
    rewrite !fmap_cons. by f_equal. }
  apply (NoDup_fmap_2 _). apply NoDup_fst_map_to_list.
Qed.

(** One row per key: two fetched rows with the same key are the same. *)
Lemma rows_pk_inj (db : DB) a b :
  a ∈ rows db → b ∈ rows db → pk a = pk b → a = b.
Proof.
  intros (ka & ra & Hka & ->)%elem_of_rows (kb & rb & Hkb & ->)%elem_of_rows.
  simpl. intros [= ->]. congruence.
Qed.

Lemma get_by_slug_spec s (db : DB) :
  (get_by_slug s db = inl DoesNotExist ↔
   ∀ k r, db !! k = Some r → slug r ≠ s)
  ∧ (get_by_slug s db = inl MultipleObjectsReturned ↔
     ∃ k1 k2 r1 r2, k1 ≠ k2 ∧ db !! k1 = Some r1 ∧ db !! k2 = Some r2
                    ∧ slug r1 = s ∧ slug r2 = s)
  ∧ (∀ root, get_by_slug s db = inr root ↔
       ∃ k r, db !! k = Some r ∧ root = set_pk (Some k) r ∧ slug r = s
              ∧ ∀ k' r', db !! k' = Some r' → slug r' = s → k' = k).
Proof.
  unfold get_by_slug.
  pose proof (NoDup_pk_rows db) as Hnodup.
  assert (∀ x, x ∈ filter (λ c, slug c = s) (rows db) ↔
               ∃ k r, db !! k = Some r ∧ x = set_pk (Some k) r ∧ slug r = s)
    as Hmem.
  { intros x. rewrite list_elem_of_filter, elem_of_rows. split.
    - intros (Hs & k & r & Hk & ->). eauto.
    - intros (k & r & Hk & -> & Hs). eauto. }
  assert (NoDup (pk <$> filter (λ c, slug c = s) (rows db))) as Hnd.
  { eapply sublist_NoDup; [done|]. apply fmap_sublist, sublist_filter. }
  destruct (filter (λ c, slug c = s) (rows db)) as [|a [|b rest]] eqn:Hf.
  - split_and!.
    + split; [|done]. intros _ k r Hk Hs.
      assert (set_pk (Some k) r ∈ []) as ?%elem_of_nil
        by (apply Hmem; eauto). done.
    + split; [done|]. intros (k1 & k2 & r1 & r2 & _ & Hk1 & _ & Hs1 & _).
      assert (set_pk (Some k1) r1 ∈ []) as ?%elem_of_nil
        by (apply Hmem; eauto). done.
    + intros root. split; [done|]. intros (k & r & Hk & _ & Hs & _).
      assert (set_pk (Some k) r ∈ []) as ?%elem_of_nil
        by (apply Hmem; eauto). done.
  - destruct (proj1 (Hmem a)) as (k & r & Hk & -> & Hs); [left|].
    assert (∀ k' r', db !! k' = Some r' → slug r' = s → k' = k) as Huniq.
    { intros k' r' Hk' Hs'.
      assert (set_pk (Some k') r' ∈ [set_pk (Some k) r]) as Hin
        by (apply Hmem; eauto).
      apply list_elem_of_singleton in Hin. by injection Hin. }
    split_and!.
    + split; [done|]. intros Hnone. by destruct (Hnone k r).
    + split; [done|].
      intros (k1 & k2 & r1 & r2 & Hne & Hk1 & Hk2 & Hs1 & Hs2).
      rewrite (Huniq k1 r1), (Huniq k2 r2) in Hne; done.
    + intros root. split.
      * intros [= <-]. exists k, r. done.
      * intros (k' & r' & Hk' & -> & Hs' & _).
        rewrite (Huniq k' r') in * by done. congruence.
  - destruct (proj1 (Hmem a)) as (ka & ra & Hka & -> & Hsa); [left|].
    destruct (proj1 (Hmem b)) as (kb & rb & Hkb & -> & Hsb);
      [right; left|].
    assert (ka ≠ kb) as Hne.
    { simpl in Hnd. apply NoDup_cons in Hnd as [Hnotin _].
      intros ->. apply Hnotin. left. }
    split_and!.
    + split; [done|]. intros Hnone. by destruct (Hnone ka ra).
    + split; [|done]. intros _. exists ka, kb, ra, rb. done.
    + intros root. split; [done|]. intros (k & r & _ & _ & _ & Huniq).
      rewrite (Huniq ka ra), (Huniq kb rb) in Hne; done.
Qed.

(** X9. [govexec] looks its root up in the whole table, whatever queryset
    it is called on: it fails with DoesNotExist exactly when no row has
    the slug "categories", and with MultipleObjectsReturned exactly when
    two rows have it. *)
Theorem govexec_errors (self : list Category) (db : DB) :
  (CategoryQuerySet.govexec self db = inl DoesNotExist ↔
   ∀ k r, db !! k = Some r → slug r ≠ "categories")
  ∧ (CategoryQuerySet.govexec self db = inl MultipleObjectsReturned ↔
     ∃ k1 k2 r1 r2, k1 ≠ k2 ∧ db !! k1 = Some r1 ∧ db !! k2 = Some r2
                    ∧ slug r1 = "categories" ∧ slug r2 = "categories").
Proof.
  destruct (get_by_slug_spec "categories" db) as (Hnone & Hmany & _).
  unfold CategoryQuerySet.govexec.
  destruct (get_by_slug "categories" db) as [e|root] eqn:Hget.
  - rewrite <- Hnone, <- Hmany. split; split; congruence.
  - rewrite <- Hnone, <- Hmany. split; split; congruence.
Qed.

(** X10. When [objects.govexec()] succeeds, its rows are those of the one
    root with the slug "categories": every descendant of that root, the
    root itself when its bounds are in order, and every row with the slug
    "govexec-sponsored" of whatever tree; and every row it yields is
    sponsored or lies in the root's tree within the root's bounds. *)
Theorem govexec_rows (db : DB) result :
  CategoryManager.govexec db = inr result →
  ∃ k r,
    db !! k = Some r ∧ slug r = "categories"
    ∧ (∀ k' r', db !! k' = Some r' → slug r' = "categories" → k' = k)
    ∧ (∀ d, d ∈ get_descendants r db → d ∈ result)
    ∧ (lft r ≤ rght r → set_pk (Some k) r ∈ result)
    ∧ (∀ c, c ∈ rows db → slug c = "govexec-sponsored" → c ∈ result)
    ∧ (∀ c, c ∈ result →
            c ∈ rows db
            ∧ (slug c = "govexec-sponsored"
               ∨ tree_id c = tree_id r ∧ lft r ≤ lft c ∧ lft c ≤ rght r)).
Proof.
  unfold CategoryManager.govexec, CategoryManager.get_query_set,
    CategoryQuerySet.govexec, CategoryQuerySet.all.
  destruct (get_by_slug "categories" db) as [e|root] eqn:Hget; [done|].
  intros [= <-].
  apply (proj2 (proj2 (get_by_slug_spec "categories" db))) in Hget
    as (k & r & Hk & -> & Hs & Huniq).
  exists k, r.
  assert (∀ c, c ∈ filter (λ c, in_range (set_pk (Some k) r) c
                                ∨ slug c = "govexec-sponsored")
                     (merge_sort ordering (rows db)) ↔
               (in_range r c ∨ slug c = "govexec-sponsored") ∧ c ∈ rows db)
    as Hmem.
  { intros c. by rewrite list_elem_of_filter, merge_sort_Permutation. }
  split_and!; [done..| | | |].
  - intros d Hd. apply Hmem.
    apply elem_of_get_descendants in Hd as (j & rj & Hj & -> & Ht & Hl & Hr).
    split; [|apply elem_of_rows; eauto]. left.
    unfold in_range. simpl. lia.
  - intros Hle. apply Hmem. split; [|apply elem_of_rows; eauto]. left.
    unfold in_range. simpl. lia.
  - intros c Hc Hsp. apply Hmem. auto.
  - intros c [Hc Hin]%Hmem. split; [done|].
    destruct Hc as [(? & ? & ?)|?]; [right|left]; done.
Qed.

Lemma govexec_rows_witness :
  ∃ k r,
    site !! k = Some r ∧ slug r = "categories"
    ∧ (∀ k' r', site !! k' = Some r' → slug r' = "categories" → k' = k)
    ∧ (∀ d, d ∈ get_descendants r site →
            d ∈ merge_sort ordering (rows site))
    ∧ (lft r ≤ rght r →
       set_pk (Some k) r ∈ merge_sort ordering (rows site))
    ∧ (∀ c, c ∈ rows site → slug c = "govexec-sponsored" →
            c ∈ merge_sort ordering (rows site))
    ∧ (∀ c, c ∈ merge_sort ordering (rows site) →
            c ∈ rows site
            ∧ (slug c = "govexec-sponsored"
               ∨ tree_id c = tree_id r ∧ lft r ≤ lft c ∧ lft c ≤ rght r)).
Proof.
  apply (govexec_rows site (merge_sort ordering (rows site))).
  vm_compute. reflexivity.
Defined.

(** X11. [active()] and [govexec()] chain in either order: filtering the
    active rows before or after [govexec] gives the same rows and the
    same errors; an inactive root is found all the same. *)
Theorem govexec_active_commute (self : list Category) (db : DB) :
  CategoryQuerySet.govexec (CategoryQuerySet.active self) db
  = match CategoryQuerySet.govexec self db with
    | inl e => inl e
    | inr result => inr (CategoryQuerySet.active result)
    end.
Proof.
  unfold CategoryQuerySet.govexec, CategoryQuerySet.active.
  destruct (get_by_slug "categories" db) as [e|root]; [done|].
  f_equal. rewrite !list_filter_filter. apply list_filter_iff.
  intros c. tauto.
Qed.

(** ** The backfill command *)

Lemma append_slash_nonempty a b : a +:+ b +:+ "/" ≠ "".
Proof. destruct a; [destruct b|]; done. Qed.

Lemma get_absolute_url_nonempty `{Settings} c db :
  alternate_url c = "" → Models.get_absolute_url c db ≠ "".
Proof.
  intros Hblank. unfold Models.get_absolute_url.
  rewrite decide_True by done. apply append_slash_nonempty.
Qed.

Lemma categories_descendants root (db : DB) :
  SetAlternateUrl.categories root db = get_descendants root db.
Proof.
  unfold SetAlternateUrl.categories, get_descendants. f_equal.
  apply list_filter_iff. intros c. unfold in_range, in_subtree. simpl. lia.
Qed.

Lemma handle_body_spec `{Settings} fuel (db0 : DB) st k r0 :
  (size db0 + 1 < fuel)%nat →
  db0 !! k = Some r0 →
  coords <$> st.2 = coords <$> db0 →
  ∃ st',
    handle_body fuel (set_pk (Some k) r0) st = Some st'
    ∧ coords <$> st'.2 = coords <$> db0
    ∧ (alternate_url r0 ≠ "" → st' = st)
    ∧ (alternate_url r0 = "" → url_at st'.2 k)
    ∧ (∀ j r, st.2 !! j = Some r → j ≠ k →
              ∃ r', st'.2 !! j = Some r'
                    ∧ alternate_url r' = alternate_url r)
    ∧ (∀ j r, st.2 !! j = Some r → j ≠ k →
              lft r ≤ lft r0 ∨ tree_id r ≠ tree_id r0 →
              st'.2 !! j = Some r).
Proof.
  intros Hfuel Hk Hcoords. destruct st as [out dbi]. simpl in *.
  unfold handle_body. simpl.
  destruct (decide (alternate_url r0 = "")) as [Hblank|Hset].
  2: { exists (out, dbi). split_and!; try done; eauto. }
  set (url := Models.get_absolute_url (set_pk (Some k) r0) dbi).
  set (item := set_alternate_url url (set_pk (Some k) r0)).
  assert (size dbi = size db0) as Hsize.
  { by rewrite <- (map_size_fmap coords dbi), Hcoords, map_size_fmap. }
  destruct (models_save_runs fuel item dbi) as (self' & dbs & Hsave); [lia|].
  rewrite Hsave. simpl. eexists. split; [done|]. simpl.
  destruct (save_own_row _ _ _ models_save_O models_save_S models_prepare_pk
              models_prepare_coords _ _ _ _ _ Hsave)
    as (Hself & k' & Hpk & Hrow).
  pose proof (save_coords _ _ _ models_save_O models_save_S
                models_prepare_pk models_prepare_coords _ _ _ _ _ Hsave)
    as Hcs.
  rewrite (persist_saved _ _ k) in Hself, Hcs
    by (by rewrite models_prepare_pk).
  simpl in *.
  assert (k' = k) as ->
    by (rewrite Hself, models_prepare_pk in Hpk; by injection Hpk).
  destruct (lookup_coords db0 dbi k r0) as (ri & Hri & Hci); [done..|].
  split_and!.
  - rewrite Hcs, <- Hcoords. eapply coords_insert_same; [done|].
    by rewrite models_prepare_coords, Hci.
  - done.
  - intros _. exists self'. split; [done|]. rewrite Hself.
    pose proof (models_prepare_payload item) as Hpay.
    unfold payload in Hpay. injection Hpay as _ _ _ _ -> _. simpl.
    by apply get_absolute_url_nonempty.
  - intros j r Hj Hne.
    destruct (save_payload _ _ _ models_save_O models_save_S
                models_prepare_pk models_prepare_coords models_prepare_active
                models_prepare_payload _ _ _ _ _ Hsave j r)
      as (r' & Hr' & Hpay & _); [done|congruence|].
    exists r'. split; [done|]. unfold payload in Hpay. congruence.
  - intros j r Hj Hne Hout.
    apply (save_frame_tree _ _ _ models_save_O models_save_S
             models_prepare_pk models_prepare_coords _ _ _ _ _ _ _ Hsave);
      [|done].
    rewrite (persist_saved _ _ k) by (by rewrite models_prepare_pk). simpl.
    by rewrite lookup_insert_ne.
Qed.

(** What a run of the command's loop does, for a root found in the
    table. *)
Lemma handle_loop `{Settings} fuel (db : DB) root :
  (size db + 1 < fuel)%nat →
  ∃ out db',
    for_each (get_descendants root db) (handle_body fuel) ([], db)
    = Some (out, db')
    ∧ coords <$> db' = coords <$> db
    ∧ (∀ d, d ∈ get_descendants root db' → alternate_url d ≠ "")
    ∧ (∀ j r, db !! j = Some r → alternate_url r ≠ "" →
              ∃ r', db' !! j = Some r'
                    ∧ alternate_url r' = alternate_url r)
    ∧ (∀ j r, db !! j = Some r →
              lft r ≤ lft root ∨ tree_id r ≠ tree_id root →
              db' !! j = Some r).
Proof.
  intros Hfuel.
  set (items := get_descendants root db).
  set (I := λ st : list string * DB,
         coords <$> st.2 = coords <$> db
         ∧ (∀ j r, db !! j = Some r → alternate_url r ≠ "" →
                   ∃ r', st.2 !! j = Some r'
                         ∧ alternate_url r' = alternate_url r)
         ∧ (∀ j r, db !! j = Some r →
                   lft r ≤ lft root ∨ tree_id r ≠ tree_id root →
                   st.2 !! j = Some r)).
  set (P := λ (x : Category) (st : list string * DB),
         ∃ k, pk x = Some k ∧ url_at st.2 k).
  assert (I ([], db)) as HI0.
  { split_and!; [done| |done]. intros j r Hj Hr. by exists r. }
  assert (∀ x st st2, x ∈ items → I st →
            handle_body fuel x st = Some st2 →
            I st2 ∧ P x st2 ∧ ∀ j, url_at st.2 j → url_at st2.2 j)
    as Hstep.
  { intros x st st2 Hx (Hc & Hurls & Hframe) Hb.
    apply elem_of_get_descendants in Hx as (k & r0 & Hk & -> & Hsub).
    destruct (handle_body_spec fuel db st k r0)
      as (st' & Hb' & Hc' & Hskip & Hnew & Hkeep & Hfr); [done..|].
    rewrite Hb in Hb'. injection Hb' as <-.
    destruct Hsub as (Ht & Hlo & _).
    assert (∀ j, url_at st.2 j → url_at st2.2 j) as Hmono.
    { intros j (r & Hr & Hu).
      destruct (decide (j = k)) as [->|Hne].
      - destruct (decide (alternate_url r0 = "")) as [Hblank|Hset]; [auto|].
        rewrite (Hskip Hset). by exists r.
      - destruct (Hkeep j r Hr Hne) as (r' & Hr' & Heq).
        exists r'. split; [done|]. congruence. }
    unfold I, P. split_and!; [done| | | |done].
    - intros j r Hj Hu. destruct (Hurls j r Hj Hu) as (r1 & Hr1 & Hu1).
      destruct (Hmono j) as (r2 & Hr2 & _); [exists r1; split; congruence|].
      destruct (decide (j = k)) as [->|Hne].
      + assert (r0 = r) as -> by congruence.
        rewrite (Hskip Hu). exists r1. done.
      + destruct (Hkeep j r1 Hr1 Hne) as (r' & Hr' & Heq).
        exists r'. split; [done|]. congruence.
    - intros j r Hj Hout.
      assert (j ≠ k) as Hne.
      { intros ->. assert (r0 = r) as -> by congruence. lia. }
      apply Hfr; [by apply Hframe|done|]. lia.
    - exists k. split; [done|].
      destruct (decide (alternate_url r0 = "")) as [Hblank|Hset]; [auto|].
      apply Hmono. destruct (Hurls k r0 Hk Hset) as (r1 & Hr1 & Hu1).
      exists r1. split; congruence. }
  destruct (for_each_is_Some I items (handle_body fuel) ([], db) HI0)
    as [[out db'] Hrun].
  { intros x st Hx HI.
    pose proof Hx as Hx'.
    apply elem_of_get_descendants in Hx' as (k & r0 & Hk & -> & _).
    destruct (handle_body_spec fuel db st k r0) as (st' & Hb & _);
      [done|done|apply HI|].
    exists st'. split; [done|]. by destruct (Hstep _ _ _ Hx HI Hb). }
  destruct (for_each_post I P items (handle_body fuel) ([], db) (out, db')
              HI0) as [(Hc & Hurls & Hframe) Hpost]; [| |done|].
  { intros x st st2 Hx HI Hb. by destruct (Hstep _ _ _ Hx HI Hb) as (?&?&?). }
  { intros x y st st2 Hy HI Hb (k & Hk & Hu).
    destruct (Hstep _ _ _ Hy HI Hb) as (_ & _ & Hmono).
    exists k. auto. }
  exists out, db'. simpl in *. split_and!; [done..| |done|done].
  intros d Hd.
  apply elem_of_get_descendants in Hd as (k & r' & Hk & -> & Hsub).
  destruct (lookup_coords db' db k r') as (r1 & Hr1 & Hc1); [done..|].
  destruct (Hpost (set_pk (Some k) r1)) as (j & [= <-] & r2 & Hr2 & Hu).
  - apply elem_of_get_descendants. exists k, r1. split_and!; [done..|].
    eapply in_subtree_coords; [done| |done]. done.
  - simpl in *. congruence.
Qed.

Lemma handle_unfold `{Settings} fuel (db : DB) root :
  get_by_slug "categories" db = inr root →
  SetAlternateUrl.handle fuel db
  = r ← for_each (get_descendants root db) (handle_body fuel) ([], db);
    Some (inr r).
Proof.
  intros Hget. unfold SetAlternateUrl.handle. rewrite Hget.
  by rewrite categories_descendants.
Qed.

(** X12. The backfill command leaves no category below the root without
    an alternate URL, and it never replaces one that was there: with a
    unique row of slug "categories" and enough fuel it returns, every row
    of the root's subtree then has a non-empty [alternate_url], and every
    row of the table that had one has the same one. *)
Theorem handle_backfills `{Settings} fuel (db : DB) root :
  get_by_slug "categories" db = inr root →
  (size db + 1 < fuel)%nat →
  ∃ out db',
    SetAlternateUrl.handle fuel db = Some (inr (out, db'))
    ∧ (∀ d, d ∈ get_descendants root db' → alternate_url d ≠ "")
    ∧ (∀ j r, db !! j = Some r → alternate_url r ≠ "" →
              ∃ r', db' !! j = Some r'
                    ∧ alternate_url r' = alternate_url r).
Proof.
  intros Hget Hfuel.
  destruct (handle_loop fuel db root Hfuel)
    as (out & db' & Hrun & _ & Hall & Hkeep & _).
  exists out, db'. rewrite (handle_unfold _ _ root), Hrun by done. done.
Qed.

Lemma handle_backfills_witness :
  ∃ out db',
    @SetAlternateUrl.handle default_settings 6 site = Some (inr (out, db'))
    ∧ (∀ d, d ∈ get_descendants
                  (set_pk (Some 1)
                     (row None 1 1 6 0 "Categories" "categories" true)) db' →
            alternate_url d ≠ "")
    ∧ (∀ j r, site !! j = Some r → alternate_url r ≠ "" →
              ∃ r', db' !! j = Some r'
                    ∧ alternate_url r' = alternate_url r).
Proof.
  apply (@handle_backfills default_settings 6 site).
  - vm_compute. reflexivity.
  - vm_compute. lia.
Defined.

(** X13. The backfill command keeps its hands off everything outside the
    root's subtree: no coordinate changes, and the root's own row, every
    row left of it and every row of another tree are left exactly as they
    were. *)
Theorem handle_frame `{Settings} fuel (db : DB) root :
  get_by_slug "categories" db = inr root →
  (size db + 1 < fuel)%nat →
  ∃ out db',
    SetAlternateUrl.handle fuel db = Some (inr (out, db'))
    ∧ coords <$> db' = coords <$> db
    ∧ (∀ j r, db !! j = Some r →
              lft r ≤ lft root ∨ tree_id r ≠ tree_id root →
              db' !! j = Some r).
Proof.
  intros Hget Hfuel.
  destruct (handle_loop fuel db root Hfuel)
    as (out & db' & Hrun & Hc & _ & _ & Hframe).
  exists out, db'. rewrite (handle_unfold _ _ root), Hrun by done. done.
Qed.

Lemma handle_frame_witness :
  ∃ out db',
    @SetAlternateUrl.handle default_settings 6 site = Some (inr (out, db'))
    ∧ coords <$> db' = coords <$> site
    ∧ (∀ j r, site !! j = Some r →
              lft r ≤ 1 ∨ tree_id r ≠ 1 →
              db' !! j = Some r).
Proof.
  apply (@handle_frame default_settings 6 site
           (set_pk (Some 1)
              (row None 1 1 6 0 "Categories" "categories" true))).
  - vm_compute. reflexivity.
  - vm_compute. lia.
Defined.

(** X14. When every category below the root already has an alternate URL,
    the command prints nothing and leaves the table as it is; it does not
    even call [save], so no fuel is needed. *)
Theorem handle_nothing_to_do `{Settings} fuel (db : DB) root :
  get_by_slug "categories" db = inr root →
  (∀ d, d ∈ get_descendants root db → alternate_url d ≠ "") →
  SetAlternateUrl.handle fuel db = Some (inr ([], db)).
Proof.
  intros Hget Hall. rewrite (handle_unfold _ _ root) by done.
  rewrite for_each_skip; [done|].
  intros x Hx. unfold handle_body. by rewrite decide_False by auto.
Qed.

Lemma handle_nothing_to_do_witness :
  @SetAlternateUrl.handle default_settings 0
    (<[2 := set_alternate_url "/n/" (row (Some 1) 1 2 3 1 "News" "news" true)]>
       (<[1 := row None 1 1 4 0 "Categories" "categories" true]> ∅))
  = Some (inr ([],
       <[2 := set_alternate_url "/n/" (row (Some 1) 1 2 3 1 "News" "news" true)]>
         (<[1 := row None 1 1 4 0 "Categories" "categories" true]> ∅))).
Proof.
  apply (@handle_nothing_to_do default_settings 0 _
           (set_pk (Some 1)
              (row None 1 1 4 0 "Categories" "categories" true))).
  - vm_compute. reflexivity.
  - intros d Hd. vm_compute in Hd.
    apply list_elem_of_singleton in Hd as ->. discriminate.
Defined.

(** ** The cascading invariant *)

Section CascadeInvariant.

Context (prepare : Category → Category) (cascades : Category → bool)
        (save : nat → Category → DB → option (Category * DB)).

Hypothesis save_O : ∀ self db, save O self db = None.
Hypothesis save_S : ∀ fuel self db,
  save (S fuel) self db = save_step prepare cascades (save fuel) self db.
Hypothesis prepare_pk : ∀ c, pk (prepare c) = pk c.
Hypothesis prepare_coords : ∀ c, coords (prepare c) = coords c.
Hypothesis prepare_active : ∀ c, active (prepare c) = active c.
Hypothesis cascades_inactive : ∀ c, active c = false → cascades c = true.

(** A row that a deactivating call turns inactive has an inactive
    subtree when the call returns. *)
Lemma save_newly_inactive fuel : ∀ self db self' db' m r r',
  active self = false →
  save fuel self db = Some (self', db') →
  (persist (prepare self) db).2 !! m = Some r → active r = true →
  db' !! m = Some r' → active r' = false →
  ∀ d, d ∈ get_descendants r' db' → active d = false.
Proof.
  induction fuel as [|fuel IH]; intros self db self' db' m r r' Hact Hsave.
  { by rewrite save_O in Hsave. }
  pose proof (persist_active _ prepare_active self db) as Hact'.
  apply (save_unfold _ _ _ save_O save_S) in Hsave
    as (fuel' & db1 & [= <-] & Hp & Hrest).
  rewrite Hp in Hact' |- *. simpl in *. rewrite Hact in Hact'.
  rewrite (cascades_inactive _ Hact'), Hact' in Hrest.
  intros Hm Hr Hm' Hr'.
  set (J := λ d : DB,
         coords <$> d = coords <$> db1
         ∧ (∀ j, flag_at false db1 j → flag_at false d j)
         ∧ (∀ ri, d !! m = Some ri → active ri = false →
                  ∀ x, x ∈ get_descendants ri d → active x = false)).
  assert (J db') as (_ & _ & Hfinal); [|by apply (Hfinal r')].
  revert Hrest. apply (for_each_inv J).
  { split_and!; [done..|]. intros ri Hri. congruence. }
  intros item dbi dbi2 Hitem (Hc & Hmono & Hsub) Hbody.
  apply elem_of_get_descendants in Hitem as (j & rj & Hj & -> & _).
  apply body_unfold in Hbody as [[_ ->]|[_ [x Hx]]]; [done|].
  pose proof (save_coords _ _ _ save_O save_S prepare_pk prepare_coords
                _ _ _ _ _ Hx) as Hcx.
  destruct (save_own_row _ _ _ save_O save_S prepare_pk prepare_coords
              _ _ _ _ _ Hx) as (Hself & _).
  rewrite (persist_item _ prepare_pk _ _ j) in Hcx, Hself by done.
  simpl in Hcx, Hself.
  destruct (lookup_coords db1 dbi j rj) as (rji & Hrji & Hcji); [done..|].
  assert (∀ q, flag_at false dbi q → flag_at false dbi2 q) as Hmono2.
  { intros q Hq.
    apply (save_keeps_inactive _ _ _ save_O save_S prepare_pk prepare_active
             fuel (set_active false (set_pk (Some j) rj)) dbi x);
      [done..|].
    rewrite (persist_item _ prepare_pk _ _ j) by done. simpl.
    destruct Hq as (rq & Hrq & Hra).
    destruct (decide (j = q)) as [->|Hne].
    - eexists. rewrite lookup_insert_eq. split; [done|].
      by rewrite prepare_active.
    - exists rq. by rewrite lookup_insert_ne. }
  assert (coords <$> dbi2 = coords <$> db1) as Hc2.
  { rewrite Hcx, <- Hc. eapply coords_insert_same; [done|].
    by rewrite prepare_coords, Hcji. }
  split_and!; [done|auto|].
  intros ri2 Hri2 Hinact.
  destruct (lookup_coords dbi2 dbi m ri2) as (ri & Hri & Hci);
    [congruence|done|].
  destruct (active ri) eqn:Hai.
  - destruct (decide (m = j)) as [->|Hne].
    + rewrite (get_descendants_coords ri2 x).
      * apply (save_cascade _ _ _ save_O save_S prepare_pk prepare_coords
                 prepare_active fuel
                 (set_active false (set_pk (Some j) rj)) dbi);
          [done..|].
        apply cascades_inactive. by rewrite Hself, prepare_active.
      * rewrite Hself, prepare_coords, coords_set_active, coords_set_pk.
        rewrite Hri in Hrji. injection Hrji as <-. congruence.
    + apply (IH (set_active false (set_pk (Some j) rj)) dbi x dbi2 m ri ri2);
        [done|done| |done|done|done].
      rewrite (persist_item _ prepare_pk _ _ j) by done. simpl.
      by rewrite lookup_insert_ne.
  - rewrite (get_descendants_coords ri2 ri) by done.
    apply (descendants_stay_inactive ri dbi); [congruence|done|].
    by apply Hsub.
Qed.

(** A deactivating call keeps the invariant of the flags. *)
Lemma save_cascaded fuel self db self' db' :
  cascaded db →
  active self = false →
  save fuel self db = Some (self', db') →
  cascaded db'.
Proof.
  intros Hinv Hact Hsave m r' Hm' Hr' d Hd.
  pose proof (save_coords _ _ _ save_O save_S prepare_pk prepare_coords
                _ _ _ _ _ Hsave) as Hcoords.
  destruct (save_own_row _ _ _ save_O save_S prepare_pk prepare_coords
              _ _ _ _ _ Hsave) as (Hself & k & Hpk & Hk).
  pose proof (persist_active _ prepare_active self db) as Hact'.
  rewrite <- Hself, Hact in Hact'.
  assert (∀ x, x ∈ get_descendants self' db' → active x = false) as Hown.
  { apply (save_cascade _ _ _ save_O save_S prepare_pk prepare_coords
             prepare_active fuel self db); auto. }
  assert (∀ j, j ≠ k → (persist (prepare self) db).2 !! j = db !! j) as Hold.
  { intros j Hne. destruct (persist_spec (prepare self) db) as (k' & Hp & _).
    rewrite Hp in *. simpl in *. subst self'. simpl in *.
    rewrite lookup_insert_ne; [done|congruence]. }
  destruct (decide (m = k)) as [->|Hne].
  { assert (r' = self') as -> by congruence. by apply Hown. }
  destruct (lookup_coords _ _ m r' Hcoords Hm') as (r & Hr & Hc).
  destruct (active r) eqn:Har.
  { by apply (save_newly_inactive fuel self db self' db' m r r'). }
  rewrite Hold in Hr by done.
  apply elem_of_get_descendants in Hd as (j & rj' & Hj' & -> & Hsub).
  simpl. destruct (decide (j = k)) as [->|Hnej]; [congruence|].
  destruct (lookup_coords _ _ j rj' Hcoords Hj') as (rj & Hrj & Hcj).
  destruct (save_keeps_inactive _ _ _ save_O save_S prepare_pk
              prepare_active fuel self db self' db' j Hact Hsave)
    as (rj2 & Hrj2 & Hinact); [|congruence].
  exists rj. split; [done|]. rewrite Hold in Hrj by done.
  apply (Hinv m r Hr Har (set_pk (Some j) rj)).
  apply elem_of_get_descendants. exists j, rj. split_and!; [done..|].
  eapply in_subtree_coords; [symmetry; exact Hc|symmetry; exact Hcj|done].
Qed.

End CascadeInvariant.

(** X19. Deactivating keeps the table consistent: if below every inactive
    row every row is inactive, the same holds after [save] of an inactive
    instance, for [CategoryBase.save] and for [Category.save]. *)
Theorem save_keeps_cascaded `{Settings} self db fuel :
  cascaded db →
  active self = false →
  (size db + 1 < fuel)%nat →
  (∃ self' db',
      CategoryBase.save fuel self db = Some (self', db') ∧ cascaded db')
  ∧ (∃ self' db',
      Models.save fuel self db = Some (self', db') ∧ cascaded db').
Proof.
  intros Hinv Hact Hfuel. split.
  - destruct (base_save_runs fuel self db Hfuel) as (self' & db' & Hsave).
    exists self', db'. split; [done|].
    apply (save_cascaded _ _ _ base_save_O base_save_S base_fill_slug_pk
             base_fill_slug_coords base_fill_slug_active
             (λ c Hc, f_equal negb Hc) fuel self db self'); done.
  - destruct (models_save_runs fuel self db Hfuel) as (self' & db' & Hsave).
    exists self', db'. split; [done|].
    apply (save_cascaded _ _ _ models_save_O models_save_S models_prepare_pk
             models_prepare_coords models_prepare_active
             (λ c _, eq_refl) fuel self db self'); done.
Qed.

Lemma all_active_cascaded (db : DB) :
  (∀ k r, db !! k = Some r → active r = true) → cascaded db.
Proof. intros Hall k r Hk Hr. rewrite (Hall k r Hk) in Hr. done. Qed.

Lemma abc_all_active k r : abc true !! k = Some r → active r = true.
Proof.
  unfold abc. intros Hk.
  repeat (rewrite lookup_insert in Hk; case_decide;
          [injection Hk as <-; reflexivity|]).
  by rewrite lookup_empty in Hk.
Qed.

Lemma save_keeps_cascaded_witness :
  (∃ self' db',
      @CategoryBase.save default_settings 5 (node_a false) (abc true)
      = Some (self', db') ∧ cascaded db')
  ∧ (∃ self' db',
      @Models.save default_settings 5 (node_a false) (abc true)
      = Some (self', db') ∧ cascaded db').
Proof.
  apply (@save_keeps_cascaded default_settings (node_a false) (abc true) 5).
  - apply all_active_cascaded, abc_all_active.
  - reflexivity.
  - vm_compute. lia.
Defined.

(** ** The rest of the form and of the model *)

(** X15. [display_converser] answers from the table, once: on an instance
    that has not asked yet, it returns what is stored for the instance's
    key and from then on returns that same value whatever is stored; when
    nothing is stored for the key (or the instance has none) it fails, and
    the instance is left as it was. *)
Theorem display_converser_spec (self : ConverserView)
    (column : gmap Z bool) :
  cv_uncached self = None →
  (∀ k b, cv_pk self = Some k → column !! k = Some b →
          (display_converser self column).1 = Some b
          ∧ ∀ column', (display_converser (display_converser self column).2
                          column').1 = Some b)
  ∧ ((∀ k, cv_pk self = Some k → column !! k = None) →
     display_converser self column = (None, self)).
Proof.
  intros Hfresh. unfold display_converser. rewrite Hfresh. split.
  - intros k b -> ->. simpl. by destruct b.
  - intros Hnone. destruct (cv_pk self) as [k|]; [|by rewrite Hfresh].
    rewrite (Hnone k eq_refl). simpl. by rewrite Hfresh.
Qed.

Lemma display_converser_spec_witness :
  (∀ k b, Some 1 = Some k → (<[1 := true]> ∅ : gmap Z bool) !! k = Some b →
          (display_converser (mkConverserView (Some 1) None)
             (<[1 := true]> ∅)).1 = Some b
          ∧ ∀ column',
              (display_converser
                 (display_converser (mkConverserView (Some 1) None)
                    (<[1 := true]> ∅)).2 column').1 = Some b)
  ∧ ((∀ k, Some 1 = Some k → (<[1 := true]> ∅ : gmap Z bool) !! k = None) →
     display_converser (mkConverserView (Some 1) None) (<[1 := true]> ∅)
     = (None, mkConverserView (Some 1) None)).
Proof.
  apply (display_converser_spec (mkConverserView (Some 1) None)
           (<[1 := true]> ∅)).
  reflexivity.
Defined.

(** X16. Whatever [clean_slug] returns has at most 50 characters.  Unless
    slug changes are allowed and the form has an instance, it reads the
    cleaned name: it fails exactly when the name is not there, and
    otherwise returns the first 50 characters of the slugified name
    whatever slug was submitted, which is the slug that [Category.save]
    derives for a category of that name with a blank slug.  With slug
    changes allowed and an instance it never reads the name and returns
    the submitted slug, cut to 50 characters. *)
Theorem clean_slug_spec `{Settings} allow_slug_change instance name_ slug_ :
  (∀ s, clean_slug allow_slug_change instance name_ slug_ = Some s →
        (String.length s ≤ 50)%nat)
  ∧ (clean_slug allow_slug_change instance name_ slug_ = None ↔
     name_ = None ∧ (instance = None ∨ allow_slug_change = false))
  ∧ (instance = None ∨ allow_slug_change = false →
     ∀ n, name_ = Some n →
          clean_slug allow_slug_change instance name_ slug_
          = Some (substring 0 50 (slugify n))
          ∧ (∀ submitted,
               clean_slug allow_slug_change instance name_ submitted
               = clean_slug allow_slug_change instance name_ slug_)
          ∧ ∀ c, name c = n → slug c = "" →
                 Some (slug (Models.fill_slug c))
                 = clean_slug allow_slug_change instance name_ slug_)
  ∧ (instance ≠ None → allow_slug_change = true →
     clean_slug allow_slug_change instance name_ slug_
     = Some (substring 0 50 slug_)).
Proof.
  unfold clean_slug.
  assert (bool_decide (instance = None) || negb allow_slug_change = true ↔
          instance = None ∨ allow_slug_change = false) as Hderive.
  { rewrite orb_true_iff, bool_decide_eq_true, negb_true_iff. done. }
  split_and!.
  - intros s.
    destruct (bool_decide (instance = None) || negb allow_slug_change).
    + destruct name_ as [n|]; simpl; [|done].
      intros [= <-]. apply length_substring_0.
    + intros [= <-]. apply length_substring_0.
  - destruct (bool_decide (instance = None) || negb allow_slug_change).
    + destruct name_ as [n|]; simpl.
      * split; [done|]. by intros [? _].
      * split; [|done]. intros _. split; [done|]. by apply Hderive.
    + split; [done|]. intros [_ Hd]. apply Hderive in Hd. done.
  - intros Hd n ->. apply Hderive in Hd. rewrite Hd. simpl.
    split_and!; [done..|].
    intros c <- Hblank. unfold Models.fill_slug. by rewrite decide_True.
  - intros Hinst ->. by rewrite bool_decide_eq_false_2.
Qed.

(** X17. A top-level category has no ancestors: without an override its
    display name is its own name, in base.py and in models.py alike, and
    without an alternate URL its URL is the base path followed by "/",
    its own slug left out. *)
Theorem root_category_breadcrumbs `{Settings} self db :
  parent self = None →
  get_ancestors self false db = []
  ∧ (unicode_name self = None →
     CategoryBase.unicode self db = name self
     ∧ Models.unicode self db = name self)
  ∧ (alternate_url self = "" →
     Models.get_absolute_url self db = reverse_categories_tree_list +:+ "/").
Proof.
  intros Hroot.
  assert (get_ancestors self false db = []) as Hnone.
  { unfold get_ancestors, is_root_node. by rewrite bool_decide_eq_true_2. }
  split_and!; [done| |].
  - intros Hname.
    unfold CategoryBase.unicode, Models.unicode,
      CategoryBase.generate_unicode_name, Models.generate_unicode_name.
    rewrite Hname, Hnone. done.
  - intros Hurl. unfold Models.get_absolute_url.
    rewrite decide_True, Hnone by done. done.
Qed.

Lemma root_category_breadcrumbs_witness :
  get_ancestors (node_a true) false (abc true) = []
  ∧ (unicode_name (node_a true) = None →
     CategoryBase.unicode (node_a true) (abc true) = "A"
     ∧ Models.unicode (node_a true) (abc true) = "A")
  ∧ (alternate_url (node_a true) = "" →
     @Models.get_absolute_url default_settings (node_a true) (abc true)
     = "/categories//").
Proof.
  apply (@root_category_breadcrumbs default_settings (node_a true)
           (abc true)).
  reflexivity.
Defined.

(** X20. On an instance without an attribute named [__all_categories],
    [all_categories] returns one path per row of
    [get_ancestors(include_self=True)], the first of them the root's name
    alone, and it stores the list it returns under
    [_CategoryBase__all_categories]. *)
Theorem all_categories_shape (self : Instance) delimiter (db : DB) :
  hasattr self "__all_categories" = false →
  ∃ paths,
    (CategoryBase.all_categories self delimiter db).1 = Some paths
    ∧ length paths = length (get_ancestors (fields self) true db)
    ∧ head paths = name <$> head (get_ancestors (fields self) true db)
    ∧ attrs (CategoryBase.all_categories self delimiter db).2
      !! "_CategoryBase__all_categories" = Some paths.
Proof.
  intros Hno. unfold CategoryBase.all_categories. rewrite Hno. simpl.
  eexists. split_and!; [done| | |apply lookup_insert_eq].
  - apply all_categories_loop_length.
  - generalize (get_ancestors (fields self) true db). intros ancestors.
    induction ancestors as [|c ancestors IH] using rev_ind; [done|].
    rewrite all_categories_loop_snoc.
    destruct ancestors as [|a ancestors]; [done|].
    simpl in IH |- *.
    destruct (CategoryBase.all_categories_loop delimiter (a :: ancestors))
      as [|p ps] eqn:Hl; [|done].
    apply (f_equal length) in Hl.
    rewrite all_categories_loop_length in Hl. done.
Qed.

Lemma all_categories_shape_witness :
  ∃ paths,
    (CategoryBase.all_categories (mkInstance (node_c true) ∅) "::"
       (abc true)).1 = Some paths
    ∧ length paths = 3%nat
    ∧ head paths = Some "A"
    ∧ attrs (CategoryBase.all_categories (mkInstance (node_c true) ∅) "::"
               (abc true)).2
      !! "_CategoryBase__all_categories" = Some paths.
Proof.
  apply (all_categories_shape (mkInstance (node_c true) ∅) "::" (abc true)).
  reflexivity.
Defined.
